(** * risk_system: a shallow embedding of the risk engine and its properties

    The development follows the C++ sources:
    - [risk_system_structs.h]: [G5], [InterestRates], [FXSpot], [DateNotionals];
    - [risk_system.h]: [RiskManagementSystem].

    Conventions of the embedding.
    - [int] values are integers of [Z]; signed overflow is undefined behaviour
      in C++ and is not modelled, so every [int] result is the mathematical one.
    - [double] values and their operations are the fields of the class
      [DoubleOps].  The sources are embedded once, over any instance.  Two
      instances are given: [binary64], IEEE 754 double precision as specified
      by [SpecFloat] (round to nearest even), where equality is equality of
      bit patterns up to the payload of NaN; and [real_arithmetic], the reals,
      for statements about signs and magnitudes in exact arithmetic.
    - [std::exp] belongs to the C library, not to the repository: it is a field
      of the class, and an argument of the [binary64] instance.
    - [std::map<int,double>] is the list of its entries in key order;
      an iterator is a position in that list.  [std::unordered_map] is a
      [gmap]; its iteration order is the one of [map_to_list].
    - A call either returns, throws, ends the process ([std::terminate]), or
      has undefined behaviour: the type [outcome].
    - Where C++ leaves the order of evaluation of operands open, they are
      evaluated from left to right.
    - Logging ([Log::...]) writes to a stream and is left out. *)

From Stdlib Require Import ZArith List Bool Lia String Ascii Sorted.
From Stdlib Require Import Reals Lra.
From Corelib Require Import SpecFloat.
From stdpp Require Import base option list gmap.

Local Open Scope Z_scope.

(** ** Outcomes of a call *)

Inductive exn : Type :=
  | out_of_range          (* std::map::at, std::unordered_map::at *)
  | bad_optional_access.  (* std::optional::value *)

Inductive outcome (A : Type) : Type :=
  | Ret (a : A)
  | Throw (e : exn)
  | Terminate
  | Undefined.

Arguments Ret {A} a.
Arguments Throw {A} e.
Arguments Terminate {A}.
Arguments Undefined {A}.

#[global] Instance outcome_ret : MRet outcome := fun A a => Ret a.

#[global] Instance outcome_bind : MBind outcome := fun A B k x =>
  match x with
  | Ret a => k a
  | Throw e => Throw e
  | Terminate => Terminate
  | Undefined => Undefined
  end.

(** ** Double precision numbers *)

Class DoubleOps : Type := {
  double : Type;
  of_int : Z -> double;                  (* conversion int -> double *)
  dadd : double -> double -> double;
  dsub : double -> double -> double;
  dmul : double -> double -> double;
  ddiv : double -> double -> double;
  dneg : double -> double;               (* unary minus *)
  std_exp : double -> double;            (* std::exp *)
}.

(** IEEE 754 binary64.  [of_int] is exact below 2^53 and rounds above. *)
Definition b64_of_int (z : Z) : spec_float := binary_normalize 53 1024 z 0 false.

Definition binary64 (exp_impl : spec_float -> spec_float) : DoubleOps := {|
  double := spec_float;
  of_int := b64_of_int;
  dadd := SFadd 53 1024;
  dsub := SFsub 53 1024;
  dmul := SFmul 53 1024;
  ddiv := SFdiv 53 1024;
  dneg := SFopp;
  std_exp := exp_impl;
|}.

(** The double written as the decimal literal [m / k], for [m] and [k] below
    2^53: the double nearest to the quotient. *)
Definition b64_lit (m k : Z) : spec_float := SFdiv 53 1024 (b64_of_int m) (b64_of_int k).

(** Exact arithmetic. *)
Definition real_arithmetic : DoubleOps := {|
  double := R;
  of_int := IZR;
  dadd := Rplus;
  dsub := Rminus;
  dmul := Rmult;
  ddiv := Rdiv;
  dneg := Ropp;
  std_exp := exp;
|}.


(** ** struct G5 *)

Inductive Currency : Type := EUR | GBP | USD | CAD | JPY.

Definition strings : list string :=
  ["EUR"; "GBP"; "USD"; "CAD"; "JPY"]%string.

Definition currency_of_index (i : nat) : option Currency :=
  match i with
  | 0%nat => Some EUR | 1%nat => Some GBP | 2%nat => Some USD
  | 3%nat => Some CAD | 4%nat => Some JPY | _ => None
  end.

Definition index_of_currency (c : Currency) : nat :=
  match c with EUR => 0 | GBP => 1 | USD => 2 | CAD => 3 | JPY => 4 end%nat.

(* for (i = 0; i < strings.size(); ++i) if (ccy_str == strings[i]) return i *)
Fixpoint to_ccy_from (i : nat) (l : list string) (ccy_str : string) : option Currency :=
  match l with
  | [] => None
  | s :: l' => if String.eqb ccy_str s then currency_of_index i
               else to_ccy_from (S i) l' ccy_str
  end.

Definition to_ccy (ccy_str : string) : option Currency :=
  to_ccy_from 0 strings ccy_str.

Definition to_string (ccy : Currency) : string :=
  nth (index_of_currency ccy) strings EmptyString.

#[global] Instance Currency_eq_dec : EqDecision Currency.
Proof. solve_decision. Defined.

#[global] Instance Currency_countable : Countable Currency.
Proof.
  refine (inj_countable' index_of_currency
            (fun i => default EUR (currency_of_index i)) _).
  intros []; reflexivity.
Defined.

(** ** struct InterestRates *)

Module InterestRates.
(** [std::map<int, double> rates]: entries in ascending key order. *)
Abbreviation rate_map := (list (Z * double)).

Section defs.
Context {D : DoubleOps}.

Fixpoint ascending_from (lo : Z) (m : rate_map) : bool :=
  match m with
  | [] => true
  | (k, _) :: m' => (lo <? k) && ascending_from k m'
  end.

(** The invariant of [std::map]: strictly ascending, hence unique, keys. *)
Definition ascending (m : rate_map) : bool :=
  match m with
  | [] => true
  | (k, _) :: m' => ascending_from k m'
  end.

Fixpoint contains (m : rate_map) (k : Z) : bool :=
  match m with
  | [] => false
  | (k', _) :: m' => (k =? k') || contains m' k
  end.

(* rates.at(k) as an rvalue *)
Fixpoint map_at (m : rate_map) (k : Z) : outcome double :=
  match m with
  | [] => Throw out_of_range
  | (k', v) :: m' => if k =? k' then Ret v else map_at m' k
  end.

(* rates.at(k) = f(rates.at(k)), for a key that is present *)
Fixpoint map_update (m : rate_map) (k : Z) (f : double -> double) : rate_map :=
  match m with
  | [] => []
  | (k', v) :: m' => if k =? k' then (k', f v) :: m'
                     else (k', v) :: map_update m' k f
  end.

Fixpoint insert_or_assign (m : rate_map) (k : Z) (v : double) : rate_map :=
  match m with
  | [] => [(k, v)]
  | (k', v') :: m' =>
      if k <? k' then (k, v) :: m
      else if k =? k' then (k, v) :: m'
      else (k', v') :: insert_or_assign m' k v
  end.

(** [rates.upper_bound(t)]: the position of the first entry whose key is
    greater than [t]; [rates.end()], the length, when there is none. *)
Fixpoint upper_bound (m : rate_map) (t : Z) : nat :=
  match m with
  | [] => 0%nat
  | (k, _) :: m' => if t <? k then 0%nat else S (upper_bound m' t)
  end.

(* Dereferencing an iterator; rates.end() cannot be dereferenced. *)
Definition deref (m : rate_map) (it : nat) : outcome (Z * double) :=
  match m !! it with
  | Some kv => Ret kv
  | None => Undefined
  end.

Definition check_tenor (rates : rate_map) (tenor : Z) : bool :=
  contains rates tenor.

Definition get_tenors (rates : rate_map) : list Z := rates.*1.

(** The two last statements of [get_discount_factor]. *)
Definition r_eff_of (t_left : Z) (r_left : double) (t_right : Z) (r_right : double)
    (t : Z) : double :=
  ddiv (dadd (dmul r_left (of_int (t_right - t)))
             (dmul r_right (of_int (t - t_left))))
       (of_int (t_right - t_left)).

Definition discount_of (r_eff : double) (t : Z) : double :=
  std_exp (ddiv (dmul (dneg r_eff) (of_int t)) (of_int 360)).

Definition get_discount_factor (rates : rate_map) (t : Z) : outcome double :=
  let it := upper_bound rates t in
  '(t_left, r_left, t_right, r_right) ←
    (if Nat.eqb it 0 (* it == rates.begin() *) then
       '(k, v) ← deref rates it;
       Ret (0, of_int 0, k, v)
     else
       '(t_left, r_left) ← deref rates (Nat.pred it);
       if Nat.eqb it (length rates) (* it == rates.end() *) then
         Ret (t_left, r_left, t_left + 1, r_left)
       else
         '(k, v) ← deref rates it;
         Ret (t_left, r_left, k, v));
  Ret (discount_of (r_eff_of t_left r_left t_right r_right t) t).

Definition add_rate (rates : rate_map) (tenor : Z) (rate : double) : rate_map :=
  insert_or_assign rates tenor rate.

(** [struct finally]: the action its destructor runs on the curve. *)
Record finally : Type := { func : rate_map -> outcome rate_map }.

Definition unbump_tenor (tenor : Z) (bump_amount : double) (rates : rate_map)
    : outcome rate_map :=
  _ ← map_at rates tenor;
  Ret (map_update rates tenor (fun r => dsub r bump_amount)).

(** [bump_tenor]: the curve after the bump and the pending release.  When
    [rates.at(tenor)] throws, nothing has been changed. *)
Definition bump_tenor (rates : rate_map) (tenor : Z) (bump_amount : double)
    : outcome (rate_map * finally) :=
  _ ← map_at rates tenor;
  Ret (map_update rates tenor (fun r => dadd r bump_amount),
       {| func := unbump_tenor tenor bump_amount |}).

(* for (auto const& tenor : get_tenors()) rates.at(tenor) op= bump_amount; *)
Fixpoint for_each_tenor (tenors : list Z) (f : double -> double) (rates : rate_map)
    : outcome rate_map :=
  match tenors with
  | [] => Ret rates
  | tenor :: tenors' =>
      _ ← map_at rates tenor;
      for_each_tenor tenors' f (map_update rates tenor f)
  end.

Definition unbump_curve (bump_amount : double) (rates : rate_map) : outcome rate_map :=
  for_each_tenor (get_tenors rates) (fun r => dsub r bump_amount) rates.

Definition bump_curve (rates : rate_map) (bump_amount : double)
    : outcome (rate_map * finally) :=
  rates' ← for_each_tenor (get_tenors rates) (fun r => dadd r bump_amount) rates;
  Ret (rates', {| func := unbump_curve bump_amount |}).

(** A scope that holds a [finally]: the body runs on the bumped curve, then
    the destructor runs, whether the body returned or threw.  A destructor
    that throws ends the process.  Yields the curve left behind. *)
Definition scoped {A : Type} (acquire : outcome (rate_map * finally))
    (body : rate_map -> outcome A) (rates : rate_map) : rate_map * outcome A :=
  match acquire with
  | Ret (bumped, unbump_later) =>
      match body bumped with
      | Undefined => (bumped, Undefined)
      | Terminate => (bumped, Terminate)
      | result =>
          match func unbump_later bumped with
          | Ret restored => (restored, result)
          | Undefined => (bumped, Undefined)
          | _ => (bumped, Terminate)
          end
      end
  | Throw e => (rates, Throw e)
  | Terminate => (rates, Terminate)
  | Undefined => (rates, Undefined)
  end.
End defs.
End InterestRates.

(** ** struct FXSpot *)

Module FXSpot.
Section defs.
Context {D : DoubleOps}.

Record t : Type := { spot : double }.

(* double spot{1.0}; defaults to 1 for USD *)
Definition default_constructed : t := {| spot := of_int 1 |}.

Definition get_spot (fx : t) : double := spot fx.
Definition set_spot (fx : t) (s : double) : t := {| spot := s |}.

(* operator/ *)
Definition div (fx FX_term : t) : double := ddiv (spot fx) (get_spot FX_term).
End defs.
End FXSpot.

(** ** struct DateNotionals *)

Module DateNotionals.
Section defs.
Context {D : DoubleOps}.

Record t : Type := {
  date_notionals : gmap Z Z;   (* std::unordered_map<int, int> *)
  delta : Z;
}.

Definition default_constructed : t := {| date_notionals := ∅; delta := 0 |}.

Definition get_maturities (dn : t) : list Z := (map_to_list (date_notionals dn)).*1.

(** [std::reduce(first, last)]: the sum starting from [double{}].  The
    standard leaves the grouping of the additions open; they are taken
    here one after the other, in the order of the vector. *)
Definition reduce (pvs : list double) : double := fold_left dadd pvs (of_int 0).

Definition get_book_value (dn : t) (discount_factors : Z -> outcome double)
    : outcome double :=
  pvs ← mapM (fun kv : Z * Z =>
                let '(date, notional) := kv in
                let eff_date := date - delta dn in
                df ← discount_factors eff_date;
                mret (dmul (of_int notional) df))
             (map_to_list (date_notionals dn));
  mret (reduce pvs).

(* date_notionals[date] += notional *)
Definition add_trade (dn : t) (date notional : Z) : t :=
  {| date_notionals :=
       <[date := default 0 (date_notionals dn !! date) + notional]> (date_notionals dn);
     delta := delta dn |}.

Definition set_delta (dn : t) (d : Z) : t :=
  {| date_notionals := date_notionals dn; delta := d |}.
End defs.
End DateNotionals.

(** ** class RiskManagementSystem<G5> *)

(** The lines of the two feeds, after the regular expressions of the
    constructor have sorted them and the stream extractions have read their
    fields. *)
Section feeds.
Context {D : DoubleOps}.

Inductive rates_line : Type :=
  | IR_line (count : Z) (name : ascii) (ccy_str : string) (rate : double)
      (* IR.<count><name>.<ccy_str> <rate> *)
  | FX_line (ccy_str : string) (spot : double)
      (* FX.SPOT.<ccy_str> <spot> *)
  | other_rates_line.

Inductive portfolio_line : Type :=
  | trade_line (notional : Z) (ccy_str : string) (payment_date : Z)
      (* <id>;<notional>;<ccy_str>;<payment_date>; *)
  | other_portfolio_line.
End feeds.

Module RiskManagementSystem.
Section defs.
Context {D : DoubleOps}.

Record t : Type := {
  currency_rates : gmap Currency InterestRates.rate_map;
  currency_spot : gmap Currency FXSpot.t;
  currency_notionals : gmap Currency DateNotionals.t;
  delta : Z;
}.

(* static constexpr double EPS{1e-4}: the double nearest to 1/10000, which
   is what the correctly rounded quotient is. *)
Definition EPS : double := ddiv (of_int 1) (of_int 10000).

(* std::unordered_map::contains, ::at *)
Definition has_key {V : Type} (m : gmap Currency V) (ccy : Currency) : bool :=
  match m !! ccy with Some _ => true | None => false end.

Definition at_key {V : Type} (m : gmap Currency V) (ccy : Currency) : outcome V :=
  match m !! ccy with Some v => Ret v | None => Throw out_of_range end.

(* std::optional::value *)
Definition value {A : Type} (o : option A) : outcome A :=
  match o with Some a => Ret a | None => Throw bad_optional_access end.

(** *** Error-checking code *)

Definition check_rates (rms : t) (ccy : Currency) : bool :=
  has_key (currency_rates rms) ccy.

Definition check_maturities (rms : t) (ccy : Currency) : bool :=
  has_key (currency_notionals rms) ccy.

Definition check_tenor_val (tenor : Z) : bool := negb (tenor <? 0).

Definition check_tenor_rate (rms : t) (ccy : Currency) (tenor : Z) : bool :=
  if negb (check_rates rms ccy) then false
  else match currency_rates rms !! ccy with
       | Some rates => InterestRates.check_tenor rates tenor
       | None => false
       end.

Definition check_fx (rms : t) (ccy : Currency) : bool :=
  has_key (currency_spot rms) ccy.

(** *** Ingestion *)

Definition with_rates (rms : t) (ccy : Currency) (rates : InterestRates.rate_map) : t :=
  {| currency_rates := <[ccy := rates]> (currency_rates rms);
     currency_spot := currency_spot rms;
     currency_notionals := currency_notionals rms;
     delta := delta rms |}.

Definition with_spot (rms : t) (ccy : Currency) (fx : FXSpot.t) : t :=
  {| currency_rates := currency_rates rms;
     currency_spot := <[ccy := fx]> (currency_spot rms);
     currency_notionals := currency_notionals rms;
     delta := delta rms |}.

Definition with_notionals (rms : t) (ccy : Currency) (dn : DateNotionals.t) : t :=
  {| currency_rates := currency_rates rms;
     currency_spot := currency_spot rms;
     currency_notionals := <[ccy := dn]> (currency_notionals rms);
     delta := delta rms |}.

Definition with_delta (rms : t) (d : Z) : t :=
  {| currency_rates := currency_rates rms;
     currency_spot := currency_spot rms;
     currency_notionals := currency_notionals rms;
     delta := d |}.

(* the switch of parse_rate: days per unit, or the default branch *)
Definition days_of_unit (name : ascii) : option Z :=
  if Ascii.eqb name "D" then Some 1
  else if Ascii.eqb name "W" then Some 7
  else if Ascii.eqb name "M" then Some 30
  else if Ascii.eqb name "Y" then Some 360
  else None.

Definition parse_rate (rms : t) (count : Z) (name : ascii) (ccy_str : string)
    (rate : double) : t :=
  if negb (check_tenor_val count) then rms
  else match days_of_unit name with
       | None => rms
       | Some days =>
           let tenor := count * days in
           match to_ccy ccy_str with
           | None => rms
           | Some ccy =>
               (* currency_rates[ccy] default-constructs a missing curve *)
               let rates := default [] (currency_rates rms !! ccy) in
               with_rates rms ccy (InterestRates.add_rate rates tenor rate)
           end
       end.

Definition parse_fx (rms : t) (ccy_str : string) (spot : double) : t :=
  match to_ccy ccy_str with
  | None => rms
  | Some ccy =>
      let fx := default FXSpot.default_constructed (currency_spot rms !! ccy) in
      with_spot rms ccy (FXSpot.set_spot fx spot)
  end.

Definition parse_trade (rms : t) (notional : Z) (ccy_str : string)
    (payment_date : Z) : t :=
  match to_ccy ccy_str with
  | None => rms
  | Some ccy =>
      let tenor := payment_date - delta rms in
      if negb (check_tenor_val tenor) then rms
      else
        let dn :=
          match currency_notionals rms !! ccy with
          | Some dn => dn
          | None => DateNotionals.set_delta DateNotionals.default_constructed (delta rms)
          end in
        with_notionals rms ccy (DateNotionals.add_trade dn payment_date notional)
  end.

Definition ingest_rates_line (rms : t) (line : rates_line) : t :=
  match line with
  | IR_line count name ccy_str rate => parse_rate rms count name ccy_str rate
  | FX_line ccy_str spot => parse_fx rms ccy_str spot
  | other_rates_line => rms
  end.

Definition ingest_portfolio_line (rms : t) (line : portfolio_line) : t :=
  match line with
  | trade_line notional ccy_str payment_date =>
      parse_trade rms notional ccy_str payment_date
  | other_portfolio_line => rms
  end.

(** The members before the constructor body runs; [delta] has no
    initializer and is not read before it is assigned. *)
Definition initial : t :=
  {| currency_rates := ∅;
     currency_spot := {[ USD := FXSpot.default_constructed ]};
     currency_notionals := ∅;
     delta := 0 |}.

(** The constructor, on two files that open. *)
Definition construct (rates_lines : list rates_line)
    (portfolio_lines : list portfolio_line) : t :=
  let rms := fold_left ingest_rates_line rates_lines initial in
  let rms := with_delta rms 42940 in
  fold_left ingest_portfolio_line portfolio_lines rms.

(** *** Queries *)

Definition get_maturities (rms : t) (ccy : Currency) : outcome (list Z) :=
  if negb (check_maturities rms ccy) then Ret []
  else dn ← at_key (currency_notionals rms) ccy;
       Ret (DateNotionals.get_maturities dn).

Definition get_tenors (rms : t) (ccy : Currency) : outcome (list Z) :=
  if negb (check_rates rms ccy) then Ret []
  else rates ← at_key (currency_rates rms) ccy;
       Ret (InterestRates.get_tenors rates).

Definition get_discount_factor (rms : t) (ccy : Currency) (tenor : Z)
    : outcome (option double) :=
  if negb (check_rates rms ccy) || negb (check_tenor_val tenor) then Ret None
  else rates ← at_key (currency_rates rms) ccy;
       df ← InterestRates.get_discount_factor rates tenor;
       Ret (Some df).

Definition get_fx_spot (rms : t) (ccy_pair : Currency * Currency)
    : outcome (option double) :=
  let '(base, term) := ccy_pair in
  if negb (check_fx rms base) || negb (check_fx rms term) then Ret None
  else fx_base ← at_key (currency_spot rms) base;
       fx_term ← at_key (currency_spot rms) term;
       Ret (Some (FXSpot.div fx_base fx_term)).

(** A computation on the curve that [get_DV01] holds by reference. *)
Definition curve_op (A : Type) : Type :=
  InterestRates.rate_map -> InterestRates.rate_map * outcome A.

Definition and_then {A B : Type} (op : curve_op A) (k : A -> curve_op B) : curve_op B :=
  fun rates =>
    match op rates with
    | (rates', Ret a) => k a rates'
    | (rates', Throw e) => (rates', Throw e)
    | (rates', Terminate) => (rates', Terminate)
    | (rates', Undefined) => (rates', Undefined)
    end.

Definition pure_op {A : Type} (x : outcome A) : curve_op A := fun rates => (rates, x).

(** The returned expression of both [get_DV01]:
    [get_fx_spot({USD, ccy}).value() * -(get_bumped_value(EPS) - get_bumped_value(-EPS)) / 2],
    its operands evaluated from left to right. *)
Definition central_difference (fx : outcome double)
    (get_bumped_value : double -> curve_op double) : curve_op (option double) :=
  and_then (pure_op fx) (fun usd_ccy =>
  and_then (get_bumped_value EPS) (fun up =>
  and_then (get_bumped_value (dneg EPS)) (fun down =>
  pure_op (Ret (Some (ddiv (dmul usd_ccy (dneg (dsub up down))) (of_int 2))))))).

Definition discount_fn (rates : InterestRates.rate_map) : Z -> outcome double :=
  fun tenor => InterestRates.get_discount_factor rates tenor.

(** The body shared by both [get_DV01], from [currency_rates.at(ccy)] on. *)
Definition DV01_body (rms : t) (ccy : Currency)
    (bump : InterestRates.rate_map -> double ->
            outcome (InterestRates.rate_map * InterestRates.finally))
    : t * outcome (option double) :=
  match at_key (currency_rates rms) ccy with
  | Ret rates =>
      match at_key (currency_notionals rms) ccy with
      | Ret trades =>
          let get_bumped_value (amount : double) : curve_op double :=
            fun rates =>
              InterestRates.scoped (bump rates amount)
                (fun bumped => DateNotionals.get_book_value trades (discount_fn bumped))
                rates in
          let fx := (o ← get_fx_spot rms (USD, ccy); value o) in
          let '(rates', result) := central_difference fx get_bumped_value rates in
          (with_rates rms ccy rates', result)
      | Throw e => (rms, Throw e)
      | Terminate => (rms, Terminate)
      | Undefined => (rms, Undefined)
      end
  | Throw e => (rms, Throw e)
  | Terminate => (rms, Terminate)
  | Undefined => (rms, Undefined)
  end.

(** [get_DV01(ccy, tenor)]: bump one tenor. *)
Definition get_DV01_tenor (rms : t) (ccy : Currency) (tenor : Z)
    : t * outcome (option double) :=
  if negb (check_tenor_rate rms ccy tenor) || negb (check_fx rms ccy) then (rms, Ret None)
  else DV01_body rms ccy (fun rates amount => InterestRates.bump_tenor rates tenor amount).

(** [get_DV01(ccy)]: bump the whole curve. *)
Definition get_DV01_curve (rms : t) (ccy : Currency) : t * outcome (option double) :=
  if negb (check_rates rms ccy) || negb (check_fx rms ccy) then (rms, Ret None)
  else DV01_body rms ccy (fun rates amount => InterestRates.bump_curve rates amount).
End defs.
End RiskManagementSystem.

(** ** The statements of the specification, in its own words *)

Section specification.
Context {D : DoubleOps}.
Import InterestRates.





(** Every rate of the curve comes back from adding and subtracting
    [amount]. *)
Definition round_trips (amount : double) (rates : rate_map) : Prop :=
  Forall (fun kv : Z * double => dsub (dadd kv.2 amount) amount = kv.2) rates.

(** The same stored tenors, as [get_tenors] and [check_tenor] see them. *)
Definition same_tenors (rates' rates : rate_map) : Prop :=
  get_tenors rates' = get_tenors rates /\
  forall tenor, check_tenor rates' tenor = check_tenor rates tenor.

(** The curve with [f] applied to every rate. *)
Definition map_rates (f : double -> double) (rates : rate_map) : rate_map :=
  (fun kv : Z * double => (kv.1, f kv.2)) <$> rates.

End specification.

Section engine_specification.
Context {D : DoubleOps}.
Import RiskManagementSystem.

(** Every curve of the engine holds a rate and is in key order; the
    reference currency has its spot entry. *)
Definition well_formed (rms : t) : Prop :=
  (forall ccy rates, currency_rates rms !! ccy = Some rates ->
     rates <> [] /\ InterestRates.ascending rates = true) /\
  is_Some (currency_spot rms !! USD).

(** Curve computations that leave the stored tenors alone. *)
Definition keeps_tenors {A : Type} (op : curve_op A) : Prop :=
  forall rates, (op rates).1.*1 = rates.*1.

(** What a bump acquires on a curve with the tenors of [rates]: a bumped
    curve and a release that succeeds, both with the same tenors. *)
Definition bumps_in_place
    (bump : InterestRates.rate_map -> double ->
            outcome (InterestRates.rate_map * InterestRates.finally))
    (rates : InterestRates.rate_map) : Prop :=
  forall amount rates', rates'.*1 = rates.*1 ->
    match bump rates' amount with
    | Ret (bumped, unbump_later) =>
        same_tenors bumped rates' /\
        exists restored,
          InterestRates.func unbump_later bumped = Ret restored /\
          same_tenors restored rates'
    | _ => False
    end.


(** [value(b)] of the DV01 formula: the book value [v] of [trades] under
    the discount function of the curve while it is bumped, and the curve
    [rates_after] that the release leaves. *)
Definition bumped_value (trades : DateNotionals.t)
    (acquire : outcome (InterestRates.rate_map * InterestRates.finally))
    (v : double) (rates_after : InterestRates.rate_map) : Prop :=
  exists bumped unbump_later,
    acquire = Ret (bumped, unbump_later) /\
    DateNotionals.get_book_value trades (discount_fn bumped) = Ret v /\
    InterestRates.func unbump_later bumped = Ret rates_after.
End engine_specification.

(** ** Readings of the feeds and of the engine state *)

Section feed_readings.
Context {D : DoubleOps}.
Import RiskManagementSystem.








(** Every ledger carries the valuation delta of the constructor, holds a
    trade, and holds no trade that matures before the valuation date. *)
Definition ledgers_sound (rms : t) : Prop :=
  delta rms = 42940 /\
  forall ccy dn, currency_notionals rms !! ccy = Some dn ->
    DateNotionals.delta dn = 42940 /\
    DateNotionals.date_notionals dn <> ∅ /\
    forall date notional,
      DateNotionals.date_notionals dn !! date = Some notional -> 42940 <= date.


(** The parts of the engine that [get_DV01] has no access to, and the
    stored tenors of every curve. *)
Definition same_but_rates (rms' rms : t) : Prop :=
  currency_spot rms' = currency_spot rms /\
  currency_notionals rms' = currency_notionals rms /\
  delta rms' = delta rms /\
  forall ccy, get_tenors rms' ccy = get_tenors rms ccy.
End feed_readings.

(** Inputs of the examples.  Where [exp] plays no role, any will do. *)
Local Abbreviation b64 := (binary64 (fun x => x)).

(** The engine of the examples in exact arithmetic: the 30 day EUR rate 0.02,
    the EUR spot 1.1, and one EUR trade of notional 100 maturing 60 days
    after the valuation date. *)
Definition sample_rms : @RiskManagementSystem.t real_arithmetic :=
  RiskManagementSystem.construct
    [IR_line (D := real_arithmetic) 1 "M" "EUR" (2 / 100)%R;
     FX_line (D := real_arithmetic) "EUR" (11 / 10)%R]
    [trade_line 100 "EUR" 43000].


(** The states of the engine that its public interface can produce: the
    constructor, followed by any number of [get_DV01] queries (the other
    queries change nothing). *)
Inductive reachable {D : DoubleOps} : RiskManagementSystem.t -> Prop :=
  | reachable_construct rates_lines portfolio_lines :
      reachable (RiskManagementSystem.construct rates_lines portfolio_lines)
  | reachable_get_DV01_tenor rms ccy tenor :
      reachable rms -> reachable (RiskManagementSystem.get_DV01_tenor rms ccy tenor).1
  | reachable_get_DV01_curve rms ccy :
      reachable rms -> reachable (RiskManagementSystem.get_DV01_curve rms ccy).1.

(** * Properties *)

(** ** Facts about the ordered map *)

Section map_facts.
Context {D : DoubleOps}.
Import InterestRates.

Lemma map_update_keys (m : rate_map) k f : (map_update m k f).*1 = m.*1.
Proof.
  induction m as [|[k' v] m IH]; simpl; [done|].
  destruct (k =? k'); csimpl; [done|]. by rewrite IH.
Qed.

Lemma contains_keys (m : rate_map) k : contains m k = true <-> k ∈ m.*1.
Proof.
  induction m as [|[k' v] m IH]; simpl.
  - split; [done|]. intros H. by apply elem_of_nil in H.
  - rewrite orb_true_iff, IH, elem_of_cons, Z.eqb_eq. done.
Qed.

Lemma contains_same_keys (m m' : rate_map) k :
  m'.*1 = m.*1 -> contains m' k = contains m k.
Proof.
  intros Hk. apply eq_true_iff_eq. by rewrite !contains_keys, Hk.
Qed.

Lemma map_at_contains (m : rate_map) k :
  contains m k = true -> exists v, map_at m k = Ret v.
Proof.
  induction m as [|[k' v] m IH]; simpl; [done|].
  destruct (k =? k'); simpl; eauto.
Qed.

Lemma map_at_elem (m : rate_map) k v : map_at m k = Ret v -> (k, v) ∈ m.
Proof.
  induction m as [|[k' v'] m IH]; simpl; [done|].
  destruct (k =? k') eqn:E.
  - intros [= ->]. apply Z.eqb_eq in E as ->. apply elem_of_cons; by left.
  - intros H. apply elem_of_cons; right; auto.
Qed.

Lemma map_at_not_contains (m : rate_map) k :
  contains m k = false -> map_at m k = Throw out_of_range.
Proof.
  induction m as [|[k' v] m IH]; simpl; [done|].
  destruct (k =? k'); simpl; [done|auto].
Qed.

Lemma map_at_update (m : rate_map) k f :
  map_at (map_update m k f) k = v ← map_at m k; Ret (f v).
Proof.
  induction m as [|[k' v] m IH]; simpl; [done|].
  destruct (k =? k') eqn:E; simpl; rewrite E; done.
Qed.

Lemma map_update_update (m : rate_map) k f g :
  map_update (map_update m k f) k g = map_update m k (fun v => g (f v)).
Proof.
  induction m as [|[k' v] m IH]; simpl; [done|].
  destruct (k =? k') eqn:E; simpl; rewrite E; [done|]. by rewrite IH.
Qed.

Lemma map_update_id (m : rate_map) k f :
  (forall v, (k, v) ∈ m -> f v = v) -> map_update m k f = m.
Proof.
  induction m as [|[k' v] m IH]; simpl; [done|]. intros Hf.
  destruct (k =? k') eqn:E.
  - apply Z.eqb_eq in E as ->. rewrite Hf; [done|]. apply elem_of_cons; by left.
  - rewrite IH; [done|]. intros v' Hv'. apply Hf. apply elem_of_cons; by right.
Qed.

Lemma ascending_from_keys lo (m m' : rate_map) :
  m'.*1 = m.*1 -> ascending_from lo m' = ascending_from lo m.
Proof.
  revert lo m'. induction m as [|[k v] m IH]; intros lo [|[k' v'] m'] Hk;
    simpl in *; try done.
  injection Hk as -> Hk. by rewrite (IH k m').
Qed.

Lemma ascending_keys (m m' : rate_map) :
  m'.*1 = m.*1 -> ascending m' = ascending m.
Proof.
  destruct m as [|[k v] m], m' as [|[k' v'] m']; simpl; try done.
  intros [= -> Hk]. by apply ascending_from_keys.
Qed.

Lemma ascending_from_lt lo (m : rate_map) k :
  ascending_from lo m = true -> k ∈ m.*1 -> lo < k.
Proof.
  revert lo. induction m as [|[k' v] m IH]; simpl; intros lo Ha Hk.
  - by apply elem_of_nil in Hk.
  - apply andb_true_iff in Ha as [Hlo Ha]. apply Z.ltb_lt in Hlo.
    apply elem_of_cons in Hk as [->|Hk]; [done|].
    specialize (IH _ Ha Hk). lia.
Qed.

Lemma ascending_from_weaken lo lo' (m : rate_map) :
  lo' <= lo -> ascending_from lo m = true -> ascending_from lo' m = true.
Proof.
  destruct m as [|[k v] m]; simpl; [done|]. intros Hle Ha.
  apply andb_true_iff in Ha as [Hlo Ha]. apply Z.ltb_lt in Hlo.
  apply andb_true_iff; split; [apply Z.ltb_lt; lia|done].
Qed.

Lemma ascending_tail kv (m : rate_map) : ascending (kv :: m) = true -> ascending m = true.
Proof.
  destruct kv as [k v], m as [|[k' v'] m]; simpl; [done|].
  intros Ha. by apply andb_true_iff in Ha as [_ Ha].
Qed.

Lemma ascending_NoDup (m : rate_map) : ascending m = true -> NoDup m.*1.
Proof.
  induction m as [|[k v] m IH]; simpl; intros Ha; [constructor|].
  constructor.
  - intros Hk. pose proof (ascending_from_lt _ _ _ Ha Hk). lia.
  - apply IH. by apply (ascending_tail (k, v)).
Qed.
End map_facts.

(** ** Bumps and their release *)

Section bump_facts.
Context {D : DoubleOps}.
Import InterestRates.

Lemma same_tenors_of_keys (rates' rates : rate_map) :
  rates'.*1 = rates.*1 -> same_tenors rates' rates.
Proof.
  intros Hk. split; [done|]. intros tenor. by apply contains_same_keys.
Qed.

Lemma for_each_tenor_keys tenors f (rates : rate_map) :
  (forall k, k ∈ tenors -> k ∈ rates.*1) ->
  exists rates', for_each_tenor tenors f rates = Ret rates' /\ rates'.*1 = rates.*1.
Proof.
  revert rates. induction tenors as [|k tenors IH]; intros rates Hin; simpl.
  - by exists rates.
  - destruct (map_at_contains rates k) as [v ->].
    { apply contains_keys, Hin, elem_of_cons; by left. }
    simpl. destruct (IH (map_update rates k f)) as (rates' & -> & Hk).
    + intros k' Hk'. rewrite map_update_keys. apply Hin, elem_of_cons; by right.
    + exists rates'. split; [done|]. by rewrite Hk, map_update_keys.
Qed.

Lemma map_at_app_fresh (before : rate_map) k v after :
  k ∉ before.*1 -> map_at (before ++ (k, v) :: after) k = Ret v.
Proof.
  induction before as [|[k' v'] before IH]; simpl; intros Hk.
  - by rewrite Z.eqb_refl.
  - apply not_elem_of_cons in Hk as [Hne Hk].
    destruct (k =? k') eqn:E; [apply Z.eqb_eq in E; done|auto].
Qed.

Lemma map_update_app_fresh (before : rate_map) k v after f :
  k ∉ before.*1 ->
  map_update (before ++ (k, v) :: after) k f = before ++ (k, f v) :: after.
Proof.
  induction before as [|[k' v'] before IH]; simpl; intros Hk.
  - by rewrite Z.eqb_refl.
  - apply not_elem_of_cons in Hk as [Hne Hk].
    destruct (k =? k') eqn:E; [apply Z.eqb_eq in E; done|]. by rewrite IH.
Qed.

Lemma for_each_tenor_app f (before todo : rate_map) :
  NoDup (before ++ todo).*1 ->
  for_each_tenor todo.*1 f (before ++ todo) = Ret (before ++ map_rates f todo).
Proof.
  revert before. induction todo as [|[k v] todo IH]; intros before Hnd; [done|].
  assert (k ∉ before.*1) as Hk.
  { rewrite fmap_app in Hnd. apply NoDup_app in Hnd as (_ & Hdisj & _).
    intros Hin. apply (Hdisj _ Hin). csimpl. apply elem_of_cons; by left. }
  csimpl. rewrite map_at_app_fresh by done. simpl.
  rewrite map_update_app_fresh by done.
  specialize (IH (before ++ [(k, f v)])). rewrite <- !app_assoc in IH. simpl in IH.
  apply IH. revert Hnd. rewrite !fmap_app. by csimpl.
Qed.

Lemma for_each_tenor_all f (rates : rate_map) :
  ascending rates = true ->
  for_each_tenor (get_tenors rates) f rates = Ret (map_rates f rates).
Proof.
  intros Ha. apply ascending_NoDup in Ha. by apply (for_each_tenor_app f []).
Qed.

Lemma map_rates_keys f (rates : rate_map) : (map_rates f rates).*1 = rates.*1.
Proof. unfold map_rates. rewrite <- list_fmap_compose. by apply list_fmap_ext. Qed.

Lemma map_rates_round_trip amount (rates : rate_map) :
  round_trips amount rates ->
  map_rates (fun r => dsub r amount) (map_rates (fun r => dadd r amount) rates) = rates.
Proof.
  unfold map_rates. intros Hrt. rewrite <- list_fmap_compose.
  rewrite <- (list_fmap_id rates) at 2. apply Forall_fmap_ext_1.
  eapply Forall_impl; [exact Hrt|]. intros [k r] Hr. simpl in *. by rewrite Hr.
Qed.

Lemma bump_tenor_same_tenors (rates : rate_map) tenor amount :
  match bump_tenor rates tenor amount with
  | Ret (bumped, unbump_later) =>
      same_tenors bumped rates /\
      exists restored,
        func unbump_later bumped = Ret restored /\ same_tenors restored rates
  | Throw _ => check_tenor rates tenor = false
  | _ => False
  end.
Proof.
  unfold bump_tenor, check_tenor. destruct (contains rates tenor) eqn:Hc.
  - destruct (map_at_contains _ _ Hc) as [v Hv]. rewrite Hv. simpl.
    split; [apply same_tenors_of_keys, map_update_keys|].
    unfold unbump_tenor. rewrite map_at_update, Hv. simpl.
    eexists; split; [done|]. apply same_tenors_of_keys. by rewrite !map_update_keys.
  - by rewrite (map_at_not_contains _ _ Hc).
Qed.

Lemma bump_curve_same_tenors (rates : rate_map) amount :
  match bump_curve rates amount with
  | Ret (bumped, unbump_later) =>
      same_tenors bumped rates /\
      exists restored,
        func unbump_later bumped = Ret restored /\ same_tenors restored rates
  | _ => False
  end.
Proof.
  unfold bump_curve.
  destruct (for_each_tenor_keys (get_tenors rates) (fun r => dadd r amount) rates)
    as (bumped & -> & Hk); [done|].
  simpl. split; [by apply same_tenors_of_keys|].
  unfold unbump_curve.
  destruct (for_each_tenor_keys (get_tenors bumped) (fun r => dsub r amount) bumped)
    as (restored & -> & Hk'); [done|].
  exists restored. split; [done|]. apply same_tenors_of_keys. by rewrite Hk'.
Qed.

(** C10.  [bump_tenor], [bump_curve] and the releases they return change
    rates only: [get_tenors] and [check_tenor] see the same stored tenors
    on the bumped curve and on the released one as before the bump, and
    the releases succeed.  A [bump_tenor] that throws has changed nothing
    (its tenor was not stored). *)
Theorem bump_scopes_keep_the_stored_tenors (rates : rate_map) (tenor : Z)
    (amount : double) :
  match bump_tenor rates tenor amount with
  | Ret (bumped, unbump_later) =>
      same_tenors bumped rates /\
      exists restored,
        func unbump_later bumped = Ret restored /\ same_tenors restored rates
  | Throw _ => check_tenor rates tenor = false
  | _ => False
  end /\
  match bump_curve rates amount with
  | Ret (bumped, unbump_later) =>
      same_tenors bumped rates /\
      exists restored,
        func unbump_later bumped = Ret restored /\ same_tenors restored rates
  | _ => False
  end.
Proof.
  split; [apply bump_tenor_same_tenors|apply bump_curve_same_tenors].
Qed.
End bump_facts.

Section bump_release.
Context {D : DoubleOps}.
Import InterestRates.

Lemma round_trips_elem amount (rates : rate_map) k r :
  round_trips amount rates -> (k, r) ∈ rates -> dsub (dadd r amount) amount = r.
Proof.
  intros Hrt Hin. unfold round_trips in Hrt. rewrite Forall_forall in Hrt.
  by apply (Hrt (k, r)).
Qed.

Lemma bump_tenor_release (rates : rate_map) tenor amount :
  round_trips amount rates ->
  match bump_tenor rates tenor amount with
  | Ret (bumped, unbump_later) => func unbump_later bumped = Ret rates
  | Throw _ => True
  | _ => False
  end.
Proof.
  intros Hrt. unfold bump_tenor. destruct (map_at rates tenor) as [v| | |] eqn:Hv;
    simpl; try done.
  - unfold unbump_tenor. rewrite map_at_update, Hv. simpl.
    rewrite map_update_update, map_update_id; [done|].
    intros r Hr. by apply (round_trips_elem _ rates tenor).
  - clear Hrt. exfalso. induction rates as [|[k' v'] rates IH]; simpl in Hv; [done|].
    destruct (tenor =? k'); [done|auto].
  - clear Hrt. exfalso. induction rates as [|[k' v'] rates IH]; simpl in Hv; [done|].
    destruct (tenor =? k'); [done|auto].
Qed.

Lemma bump_curve_release (rates : rate_map) amount :
  ascending rates = true -> round_trips amount rates ->
  match bump_curve rates amount with
  | Ret (bumped, unbump_later) => func unbump_later bumped = Ret rates
  | _ => False
  end.
Proof.
  intros Ha Hrt. unfold bump_curve. rewrite for_each_tenor_all by done. simpl.
  unfold unbump_curve. rewrite for_each_tenor_all.
  - by rewrite map_rates_round_trip.
  - rewrite <- Ha. apply ascending_keys, map_rates_keys.
Qed.


End bump_release.


(** ** Interpolation *)

Section interpolation.
Context {D : DoubleOps}.
Import InterestRates.




Lemma get_discount_factor_begin (rates : rate_map) t k v :
  upper_bound rates t = 0%nat -> rates !! 0%nat = Some (k, v) ->
  get_discount_factor rates t = Ret (discount_of (r_eff_of 0 (of_int 0) k v t) t).
Proof.
  intros Hub Hl. unfold get_discount_factor, deref. rewrite Hub.
  change (0 =? 0)%nat with true. cbv iota. by rewrite Hl.
Qed.

Lemma get_discount_factor_end (rates : rate_map) t n t_left r_left :
  upper_bound rates t = S n -> rates !! n = Some (t_left, r_left) ->
  length rates = S n ->
  get_discount_factor rates t
    = Ret (discount_of (r_eff_of t_left r_left (t_left + 1) r_left t) t).
Proof.
  intros Hub Hl Hlen. unfold get_discount_factor, deref. rewrite Hub, Hlen.
  change (S n =? 0)%nat with false. cbv iota.
  change (Nat.pred (S n)) with n. rewrite Hl, Nat.eqb_refl. done.
Qed.

Lemma get_discount_factor_inside (rates : rate_map) t n t_left r_left t_right r_right :
  upper_bound rates t = S n -> rates !! n = Some (t_left, r_left) ->
  rates !! S n = Some (t_right, r_right) ->
  get_discount_factor rates t
    = Ret (discount_of (r_eff_of t_left r_left t_right r_right t) t).
Proof.
  intros Hub Hl Hr. unfold get_discount_factor, deref. rewrite Hub.
  change (S n =? 0)%nat with false. cbv iota.
  change (Nat.pred (S n)) with n. rewrite Hl, Hr.
  apply lookup_lt_Some in Hr.
  destruct (Nat.eqb_spec (S n) (length rates)) as [E|_]; [lia|done].
Qed.




End interpolation.



(** Beyond the last point the rate is held flat through the interpolation
    formula over one more day, in double arithmetic: on the curve
    {(30, 0.02), (60, 0.025)} the effective rate at 9999 days is
    [0.025 * (61 - 9999) + 0.025 * (9999 - 60)], which is not the double
    0.025, and [exp] receives another argument than [-0.025 * 9999 / 360]. *)
Example flat_extrapolation_in_binary64 :
  let r := b64_lit 25 1000 in
  let r_eff := @InterestRates.r_eff_of (binary64 (fun x => x)) 60 r 61 r 9999 in
  r = S754_finite false 7205759403792794 (-58) /\
  r_eff = S754_finite false 7205759403794432 (-58) /\
  forall exp_impl,
    @InterestRates.get_discount_factor (binary64 exp_impl)
      [(30, b64_lit 2 100); (60, b64_lit 25 1000)] 9999
    = Ret (exp_impl (S754_finite true 6254373982512198 (-53))) /\
    @InterestRates.discount_of (binary64 exp_impl) r 9999
    = exp_impl (S754_finite true 6254373982510777 (-53)).
Proof. split; [reflexivity|]. split; [reflexivity|]. intros exp_impl. split; reflexivity. Qed.


(** The engine's own bump size moves a rate of 0.195% by one unit in the
    last place: bumped by [EPS] and released, it is the next double below. *)
Example EPS_round_trip_moves_a_rate :
  let rate := b64_lit 195 100000 in
  let EPS := @RiskManagementSystem.EPS (binary64 (fun x => x)) in
  rate = S754_finite false 8992787735933406 (-62) /\
  SFsub 53 1024 (SFadd 53 1024 rate EPS) EPS = S754_finite false 8992787735933405 (-62).
Proof. split; reflexivity. Qed.

(** ** The ledger *)

Section ledger.
Context {D : DoubleOps}.
Import DateNotionals.





End ledger.


(** ** The engine *)

Section engine_invariant.
Context {D : DoubleOps}.
Import RiskManagementSystem.

Lemma insert_or_assign_nonempty (m : InterestRates.rate_map) k v :
  InterestRates.insert_or_assign m k v <> [].
Proof.
  destruct m as [|[k' v'] m]; simpl; [done|].
  destruct (k <? k'); [done|]. by destruct (k =? k').
Qed.

Lemma insert_or_assign_ascending_from lo (m : InterestRates.rate_map) k v :
  lo < k -> InterestRates.ascending_from lo m = true ->
  InterestRates.ascending_from lo (InterestRates.insert_or_assign m k v) = true.
Proof.
  revert lo. induction m as [|[k' v'] m IH]; intros lo Hlo Ha; simpl in *.
  - apply andb_true_iff. split; [by apply Z.ltb_lt|done].
  - apply andb_true_iff in Ha as [Hk' Ha]. apply Z.ltb_lt in Hk'.
    destruct (k <? k') eqn:E1; [|destruct (k =? k') eqn:E2]; simpl.
    + apply Z.ltb_lt in E1. rewrite Ha. rewrite !andb_true_r.
      apply andb_true_iff; split; by apply Z.ltb_lt.
    + apply Z.eqb_eq in E2 as ->. rewrite Ha. rewrite andb_true_r. by apply Z.ltb_lt.
    + apply Z.ltb_ge in E1. apply Z.eqb_neq in E2.
      apply andb_true_iff; split; [by apply Z.ltb_lt|]. apply IH; [lia|done].
Qed.

Lemma insert_or_assign_ascending (m : InterestRates.rate_map) k v :
  InterestRates.ascending m = true ->
  InterestRates.ascending (InterestRates.insert_or_assign m k v) = true.
Proof.
  destruct m as [|[k' v'] m]; simpl; [done|]. intros Ha.
  destruct (k <? k') eqn:E1; [|destruct (k =? k') eqn:E2]; simpl.
  - rewrite Ha, andb_true_r. done.
  - apply Z.eqb_eq in E2 as ->. done.
  - apply Z.ltb_ge in E1. apply Z.eqb_neq in E2.
    apply insert_or_assign_ascending_from; [lia|done].
Qed.

Lemma well_formed_with_rates rms ccy (rates : InterestRates.rate_map) :
  well_formed rms -> rates <> [] -> InterestRates.ascending rates = true ->
  well_formed (with_rates rms ccy rates).
Proof.
  intros [Hc Hu] Hne Ha. split; [|done]. intros ccy' rates'. simpl.
  rewrite lookup_insert. case_decide as E.
  - by intros [= <-].
  - apply Hc.
Qed.

Lemma well_formed_parse_rate rms count name ccy_str rate :
  well_formed rms -> well_formed (parse_rate rms count name ccy_str rate).
Proof.
  intros Hwf. unfold parse_rate.
  destruct (negb (check_tenor_val count)); [done|].
  destruct (days_of_unit name) as [days|]; [|done].
  destruct (to_ccy ccy_str) as [ccy|]; [|done].
  apply well_formed_with_rates; [done|apply insert_or_assign_nonempty|].
  apply insert_or_assign_ascending.
  destruct (currency_rates rms !! ccy) as [rates|] eqn:E; simpl; [|done].
  by apply (proj1 Hwf ccy).
Qed.

Lemma well_formed_parse_fx rms ccy_str spot :
  well_formed rms -> well_formed (parse_fx rms ccy_str spot).
Proof.
  intros [Hc Hu]. unfold parse_fx. destruct (to_ccy ccy_str) as [ccy|]; [|done].
  split; [done|]. simpl. rewrite lookup_insert. by case_decide.
Qed.

Lemma well_formed_parse_trade rms notional ccy_str payment_date :
  well_formed rms -> well_formed (parse_trade rms notional ccy_str payment_date).
Proof.
  intros Hwf. unfold parse_trade. destruct (to_ccy ccy_str) as [ccy|]; [|done].
  by destruct (negb (check_tenor_val (payment_date - delta rms))).
Qed.

Lemma well_formed_initial : well_formed initial.
Proof. split; [|by eexists]. intros ccy rates. simpl. by rewrite lookup_empty. Qed.

Lemma well_formed_construct rates_lines portfolio_lines :
  well_formed (construct rates_lines portfolio_lines).
Proof.
  unfold construct.
  assert (forall lines rms, well_formed rms ->
            well_formed (fold_left ingest_rates_line lines rms)) as Hrates.
  { induction lines as [|line lines IH]; intros rms Hwf; simpl; [done|].
    apply IH. destruct line; simpl; auto using well_formed_parse_rate, well_formed_parse_fx. }
  assert (forall lines rms, well_formed rms ->
            well_formed (fold_left ingest_portfolio_line lines rms)) as Htrades.
  { induction lines as [|line lines IH]; intros rms Hwf; simpl; [done|].
    apply IH. destruct line; simpl; auto using well_formed_parse_trade. }
  apply Htrades. by apply (Hrates _ _ well_formed_initial).
Qed.

Lemma keeps_tenors_and_then {A B : Type} (op : curve_op A) (k : A -> curve_op B) :
  keeps_tenors op -> (forall a, keeps_tenors (k a)) -> keeps_tenors (and_then op k).
Proof.
  intros Hop Hk rates. unfold and_then. specialize (Hop rates).
  destruct (op rates) as [rates' [a| | |]]; simpl in *; try done.
  by rewrite Hk.
Qed.

Lemma keeps_tenors_pure_op {A : Type} (x : outcome A) : keeps_tenors (pure_op x).
Proof. done. Qed.

Lemma keeps_tenors_scoped {A : Type}
    (bump : InterestRates.rate_map -> outcome (InterestRates.rate_map * InterestRates.finally))
    (body : InterestRates.rate_map -> outcome A) :
  (forall rates,
     match bump rates with
     | Ret (bumped, unbump_later) =>
         same_tenors bumped rates /\
         exists restored,
           InterestRates.func unbump_later bumped = Ret restored /\
           same_tenors restored rates
     | Throw _ => True
     | _ => False
     end) ->
  keeps_tenors (fun rates => InterestRates.scoped (bump rates) body rates).
Proof.
  intros Hbump rates. specialize (Hbump rates). unfold InterestRates.scoped.
  destruct (bump rates) as [[bumped unbump_later]| | |]; try done.
  destruct Hbump as [[Hb _] (restored & -> & [Hr _])].
  by destruct (body bumped).
Qed.

Lemma keeps_tenors_central_difference fx (get_bumped_value : double -> curve_op double) :
  (forall amount, keeps_tenors (get_bumped_value amount)) ->
  keeps_tenors (central_difference fx get_bumped_value).
Proof.
  intros Hg. unfold central_difference.
  repeat (apply keeps_tenors_and_then; [auto using keeps_tenors_pure_op|intros ?]).
  apply keeps_tenors_pure_op.
Qed.

Lemma well_formed_DV01_body rms ccy bump :
  (forall amount rates,
     match bump rates amount with
     | Ret (bumped, unbump_later) =>
         same_tenors bumped rates /\
         exists restored,
           InterestRates.func unbump_later bumped = Ret restored /\
           same_tenors restored rates
     | Throw _ => True
     | _ => False
     end) ->
  well_formed rms -> well_formed (DV01_body rms ccy bump).1.
Proof.
  intros Hbump Hwf. unfold DV01_body, at_key.
  destruct (currency_rates rms !! ccy) as [rates|] eqn:Hr; [|done].
  destruct (currency_notionals rms !! ccy) as [trades|]; [|done].
  match goal with |- context [central_difference ?fx ?g rates] =>
    pose proof (keeps_tenors_central_difference fx g) as Hk;
    destruct (central_difference fx g rates) as [rates' result] eqn:Hcd
  end.
  simpl. specialize (Hk (fun amount => keeps_tenors_scoped _ _ (Hbump amount)) rates).
  rewrite Hcd in Hk. simpl in Hk.
  destruct (proj1 Hwf ccy rates Hr) as [Hne Ha].
  apply well_formed_with_rates; [done| |].
  - intros ->. destruct rates; [done|discriminate Hk].
  - rewrite <- Ha. by apply ascending_keys.
Qed.

Lemma well_formed_get_DV01_tenor rms ccy tenor :
  well_formed rms -> well_formed (get_DV01_tenor rms ccy tenor).1.
Proof.
  intros Hwf. unfold get_DV01_tenor.
  destruct (negb (check_tenor_rate rms ccy tenor) || negb (check_fx rms ccy)); [done|].
  apply well_formed_DV01_body; [|done]. intros amount rates.
  pose proof (bump_tenor_same_tenors rates tenor amount) as H.
  by destruct (InterestRates.bump_tenor rates tenor amount) as [[??]| | |].
Qed.

Lemma well_formed_get_DV01_curve rms ccy :
  well_formed rms -> well_formed (get_DV01_curve rms ccy).1.
Proof.
  intros Hwf. unfold get_DV01_curve.
  destruct (negb (check_rates rms ccy) || negb (check_fx rms ccy)); [done|].
  apply well_formed_DV01_body; [|done]. intros amount rates.
  pose proof (bump_curve_same_tenors rates amount) as H.
  by destruct (InterestRates.bump_curve rates amount) as [[??]| | |].
Qed.

Lemma reachable_well_formed rms : reachable rms -> well_formed rms.
Proof.
  induction 1; auto using well_formed_construct, well_formed_get_DV01_tenor,
    well_formed_get_DV01_curve.
Qed.

Lemma upper_bound_le (rates : InterestRates.rate_map) t :
  (InterestRates.upper_bound rates t <= length rates)%nat.
Proof.
  induction rates as [|[k v] rates IH]; simpl; [done|].
  destruct (t <? k); simpl; lia.
Qed.

(** On a curve that holds a rate no iterator is dereferenced at the end. *)
Lemma get_discount_factor_defined (rates : InterestRates.rate_map) t :
  rates <> [] -> exists df, InterestRates.get_discount_factor rates t = Ret df.
Proof.
  intros Hne. pose proof (upper_bound_le rates t) as Hle.
  destruct (InterestRates.upper_bound rates t) as [|n] eqn:Hub.
  - destruct rates as [|[k v] rates]; [done|].
    eexists. by apply (get_discount_factor_begin _ _ k v).
  - destruct (lookup_lt_is_Some_2 rates n) as [[tl rl] Hl]; [lia|].
    destruct (decide (length rates = S n)) as [Hlen|Hlen].
    + eexists. by eapply get_discount_factor_end.
    + destruct (lookup_lt_is_Some_2 rates (S n)) as [[tr rr] Hr]; [lia|].
      eexists. by eapply get_discount_factor_inside.
Qed.

(** C9.  In every state the public interface can reach, each curve of the
    engine holds at least one rate, and the engine's [get_discount_factor]
    returns for every currency and tenor: it has no result, or the value
    of the curve's interpolation, which is then not run on an empty
    curve (where it would dereference [rates.end()]). *)
Theorem reachable_curves_are_never_empty (rms : t) :
  reachable rms ->
  (forall ccy rates, currency_rates rms !! ccy = Some rates -> rates <> []) /\
  (forall ccy tenor,
     (get_discount_factor rms ccy tenor = Ret None /\
      (currency_rates rms !! ccy = None \/ tenor < 0)) \/
     (exists rates df,
        currency_rates rms !! ccy = Some rates /\ 0 <= tenor /\
        InterestRates.get_discount_factor rates tenor = Ret df /\
        get_discount_factor rms ccy tenor = Ret (Some df))).
Proof.
  intros Hwf%reachable_well_formed. destruct Hwf as [Hc _].
  split; [intros ccy rates Hr; by apply (Hc ccy rates)|].
  intros ccy tenor. unfold get_discount_factor, check_rates, has_key, at_key.
  destruct (currency_rates rms !! ccy) as [rates|] eqn:Hr; simpl.
  - unfold check_tenor_val. destruct (tenor <? 0) eqn:Ht; simpl.
    + left. split; [done|]. right. by apply Z.ltb_lt.
    + right. destruct (get_discount_factor_defined rates tenor) as [df Hdf].
      { by apply (Hc ccy rates). }
      exists rates, df. rewrite Hdf. apply Z.ltb_ge in Ht. done.
  - left. split; [done|]. by left.
Qed.
End engine_invariant.

Section sensitivity.
Context {D : DoubleOps}.
Import RiskManagementSystem.

Lemma mapM_defined {A B : Type} (f : A -> outcome B) (l : list A) :
  (forall a, exists b, f a = Ret b) -> exists bs, mapM f l = Ret bs.
Proof.
  intros Hf. induction l as [|a l [bs IH]]; simpl; [by eexists|].
  destruct (Hf a) as [b ->]. rewrite IH. by eexists.
Qed.

Lemma get_book_value_defined (trades : DateNotionals.t) fn :
  (forall tenor, exists df, fn tenor = Ret df) ->
  exists v, DateNotionals.get_book_value trades fn = Ret v.
Proof.
  intros Hfn. unfold DateNotionals.get_book_value.
  match goal with |- context [mapM ?f ?l] => destruct (mapM_defined f l) as [pvs ->] end.
  - intros [date notional]. destruct (Hfn (date - DateNotionals.delta trades)) as [df ->].
    by eexists.
  - by eexists.
Qed.

Lemma nonempty_same_keys (rates' rates : InterestRates.rate_map) :
  rates'.*1 = rates.*1 -> rates <> [] -> rates' <> [].
Proof. intros Hk Hne ->. by destruct rates. Qed.


Lemma scoped_bumped_value (trades : DateNotionals.t) bump rates rates' amount :
  bumps_in_place bump rates -> rates <> [] -> rates'.*1 = rates.*1 ->
  exists v rates_after,
    bumped_value trades (bump rates' amount) v rates_after /\
    rates_after.*1 = rates.*1 /\
    InterestRates.scoped (bump rates' amount)
      (fun bumped => DateNotionals.get_book_value trades (discount_fn bumped)) rates'
    = (rates_after, Ret v).
Proof.
  intros Hbump Hne Hk. specialize (Hbump amount rates' Hk). unfold bumped_value.
  destruct (bump rates' amount) as [[bumped unbump_later]| | |]; try done.
  destruct Hbump as [[Hb _] (restored & Hrel & [Hr _])].
  destruct (get_book_value_defined trades (discount_fn bumped)) as [v Hv].
  { intros tenor. apply get_discount_factor_defined.
    apply (nonempty_same_keys _ rates); [|done]. unfold InterestRates.get_tenors in Hb.
    by rewrite Hb. }
  exists v, restored. split; [by exists bumped, unbump_later|]. split.
  - unfold InterestRates.get_tenors in Hr. by rewrite Hr.
  - unfold InterestRates.scoped. by rewrite Hv, Hrel.
Qed.

Lemma get_fx_spot_lookup rms base term :
  get_fx_spot rms (base, term)
  = Ret (match currency_spot rms !! base, currency_spot rms !! term with
         | Some fx_base, Some fx_term => Some (FXSpot.div fx_base fx_term)
         | _, _ => None
         end).
Proof.
  unfold get_fx_spot, check_fx, has_key, at_key.
  destruct (currency_spot rms !! base), (currency_spot rms !! term); done.
Qed.

Lemma DV01_body_value rms ccy bump rates trades fx_usd fx_ccy :
  currency_rates rms !! ccy = Some rates ->
  currency_notionals rms !! ccy = Some trades ->
  currency_spot rms !! USD = Some fx_usd ->
  currency_spot rms !! ccy = Some fx_ccy ->
  rates <> [] ->
  bumps_in_place bump rates ->
  exists up down rates1 rates2,
    bumped_value trades (bump rates EPS) up rates1 /\
    bumped_value trades (bump rates1 (dneg EPS)) down rates2 /\
    DV01_body rms ccy bump
    = (with_rates rms ccy rates2,
       Ret (Some (ddiv (dmul (ddiv (FXSpot.spot fx_usd) (FXSpot.spot fx_ccy))
                             (dneg (dsub up down)))
                       (of_int 2)))).
Proof.
  intros Hr Hn Hu Hc Hne Hbump.
  destruct (scoped_bumped_value trades bump rates rates EPS)
    as (up & rates1 & Hup & Hk1 & Hs1); [done..|].
  destruct (scoped_bumped_value trades bump rates rates1 (dneg EPS))
    as (down & rates2 & Hdown & Hk2 & Hs2); [done..|].
  exists up, down, rates1, rates2. split; [done|]. split; [done|].
  unfold DV01_body, at_key. rewrite Hr, Hn, get_fx_spot_lookup, Hu, Hc. simpl.
  unfold central_difference, and_then, pure_op. by rewrite Hs1, Hs2.
Qed.

Lemma bump_tenor_in_place (rates : InterestRates.rate_map) tenor :
  InterestRates.check_tenor rates tenor = true ->
  bumps_in_place (fun rates amount => InterestRates.bump_tenor rates tenor amount) rates.
Proof.
  intros Hc amount rates' Hk.
  pose proof (bump_tenor_same_tenors rates' tenor amount) as H.
  destruct (InterestRates.bump_tenor rates' tenor amount) as [[??]| | |]; try done.
  unfold InterestRates.check_tenor in *.
  rewrite (contains_same_keys rates rates' tenor Hk) in H. congruence.
Qed.

Lemma bump_curve_in_place (rates : InterestRates.rate_map) :
  bumps_in_place (fun rates amount => InterestRates.bump_curve rates amount) rates.
Proof.
  intros amount rates' Hk. pose proof (bump_curve_same_tenors rates' amount) as H.
  by destruct (InterestRates.bump_curve rates' amount) as [[??]| | |].
Qed.




(** With both checks passed, [get_DV01] has "no result" in no case: it
    returns a value or fails. *)
Lemma DV01_body_result rms ccy bump :
  (DV01_body rms ccy bump).2 <> Ret None.
Proof.
  unfold DV01_body.
  destruct (at_key (currency_rates rms) ccy) as [rates| | |]; try done.
  destruct (at_key (currency_notionals rms) ccy) as [trades| | |]; try done.
  match goal with |- context [central_difference ?fx ?g rates] =>
    destruct (central_difference fx g rates) as [rates' result] eqn:Hcd
  end.
  simpl. intros ->. revert Hcd. unfold central_difference, and_then, pure_op.
  repeat match goal with
         | |- context [match ?x with _ => _ end] => destruct x; try done
         end.
Qed.

(** [get_DV01 (ccy, tenor)] has "no result" exactly when [ccy] has no curve,
    or its curve no rate at [tenor], or [ccy] no spot entry. *)
Lemma get_DV01_tenor_no_result rms ccy tenor :
  (get_DV01_tenor rms ccy tenor).2 = Ret None <->
  currency_rates rms !! ccy = None \/
  (exists rates, currency_rates rms !! ccy = Some rates /\
                 InterestRates.check_tenor rates tenor = false) \/
  currency_spot rms !! ccy = None.
Proof.
  unfold get_DV01_tenor, check_tenor_rate, check_rates, check_fx, has_key.
  destruct (currency_rates rms !! ccy) as [rates|] eqn:Hr; simpl.
  2:{ split; [by left|done]. }
  destruct (InterestRates.check_tenor rates tenor) eqn:Ht; simpl.
  2:{ split; [|done]. intros _. right; left. by exists rates. }
  destruct (currency_spot rms !! ccy) as [fx|] eqn:Hc; simpl.
  2:{ split; [|done]. intros _. by right; right. }
  split.
  - intros H. by apply DV01_body_result in H.
  - intros [H|[(rates' & [= <-] & H)|H]]; congruence.
Qed.
End sensitivity.


(** C9, witness: the engine built from one rate line. *)
Lemma reachable_curves_are_never_empty_witness :
  let rms :=
    @RiskManagementSystem.construct b64
      [IR_line (D := b64) 1 "M" "EUR" (b64_lit 2 100)] [] in
  reachable rms /\
  forall ccy rates, RiskManagementSystem.currency_rates rms !! ccy = Some rates -> rates <> [].
Proof.
  split; [apply reachable_construct|].
  exact (proj1 (@reachable_curves_are_never_empty b64 _
                  (reachable_construct _ _))).
Defined.

Section missing_ledger.
Context {D : DoubleOps}.
Import RiskManagementSystem.

(** Both [get_DV01] reach [currency_notionals.at(ccy)] unchecked. *)
Lemma DV01_body_without_a_ledger rms ccy bump :
  is_Some (currency_rates rms !! ccy) ->
  currency_notionals rms !! ccy = None ->
  DV01_body rms ccy bump = (rms, Throw out_of_range).
Proof.
  intros [rates Hr] Hn. unfold DV01_body, at_key. by rewrite Hr, Hn.
Qed.

(** C4, the code at the failing input.  The engine built from the one rate
    line [IR.1Y.USD <rate>] and no trade: USD has a curve with a rate at
    360 days and its default spot entry, so the checks of [get_DV01] pass,
    and there is no USD ledger.  [get_DV01 (USD, 360)] and [get_DV01 (USD)]
    throw [std::out_of_range]: neither a value nor "no result". *)
Theorem get_DV01_without_a_ledger_throws (rate : double) :
  let rms := construct [IR_line 1 "Y" "USD" rate] [] in
  check_tenor_rate rms USD 360 = true /\
  check_fx rms USD = true /\
  check_maturities rms USD = false /\
  get_DV01_tenor rms USD 360 = (rms, Throw out_of_range) /\
  get_DV01_curve rms USD = (rms, Throw out_of_range).
Proof. repeat split; reflexivity. Qed.
End missing_ledger.

(** ** Cross rates *)

Section cross_rates.
Import RiskManagementSystem.

Lemma new_location_exact nb_steps : new_location nb_steps 0 = loc_Exact.
Proof. unfold new_location. by destruct (Z.even nb_steps). Qed.

(** A finite non-zero double divided by itself is 1.0. *)
Lemma SFdiv_self s m e :
  SFdiv 53 1024 (S754_finite s m e) (S754_finite s m e) = b64_of_int 1.
Proof.
  unfold SFdiv, SFdiv_core_binary.
  rewrite !Z.sub_diag. change (fexp 53 1024 0) with (-53).
  change (Z.min (-53) 0) with (-53). change (0 - -53) with 53.
  rewrite Z.shiftl_mul_pow2 by lia.
  pose proof (Z.div_mul (2 ^ 53) (Z.pos m) ltac:(lia)) as Hq.
  pose proof (Z.mod_mul (2 ^ 53) (Z.pos m) ltac:(lia)) as Hr.
  rewrite (Z.mul_comm (Z.pos m)).
  unfold Z.div, Z.modulo in Hq, Hr.
  destruct (Z.div_eucl (2 ^ 53 * Z.pos m) (Z.pos m)) as [q r].
  simpl in Hq, Hr. subst q r. rewrite new_location_exact.
  by destruct s.
Qed.

(** C6, as amended.  [get_fx_spot (base, term)] has a result exactly when
    both currencies have a spot entry, and the result is the quotient
    [spot (base) / spot (term)] in double arithmetic.
    [get_fx_spot (ccy, ccy)] is 1.0 for every currency whose stored spot is
    a finite double other than zero. *)
Theorem get_fx_spot_is_the_quotient_of_the_spots exp_impl
    (rms : @RiskManagementSystem.t (binary64 exp_impl)) :
  (forall base term,
     get_fx_spot rms (base, term)
     = Ret (match currency_spot rms !! base, currency_spot rms !! term with
            | Some fx_base, Some fx_term =>
                Some (SFdiv 53 1024 (FXSpot.spot fx_base) (FXSpot.spot fx_term))
            | _, _ => None
            end)) /\
  (forall ccy fx s m e,
     currency_spot rms !! ccy = Some fx ->
     FXSpot.spot fx = S754_finite s m e ->
     get_fx_spot rms (ccy, ccy) = Ret (Some (b64_of_int 1))).
Proof.
  split.
  - intros base term. apply (@get_fx_spot_lookup (binary64 exp_impl)).
  - intros ccy fx s m e Hfx Hspot.
    rewrite (@get_fx_spot_lookup (binary64 exp_impl)), Hfx.
    unfold FXSpot.div, FXSpot.get_spot. rewrite Hspot.
    do 2 f_equal. apply SFdiv_self.
Qed.
End cross_rates.

(** C6, witness: the spot 1.1 of the feed line [FX.SPOT.EUR 1.1]. *)
Lemma get_fx_spot_is_the_quotient_of_the_spots_witness :
  let rms :=
    @RiskManagementSystem.construct b64
      [FX_line (D := b64) "EUR" (b64_lit 11 10)] [] in
  RiskManagementSystem.currency_spot rms !! EUR = Some (@FXSpot.Build_t b64 (b64_lit 11 10)) /\
  b64_lit 11 10 = S754_finite false 4953959590107546 (-52) /\
  RiskManagementSystem.get_fx_spot rms (EUR, EUR) = Ret (Some (b64_of_int 1)).
Proof.
  split; [reflexivity|]. split; [reflexivity|].
  exact (proj2 (get_fx_spot_is_the_quotient_of_the_spots (fun x => x)
                  (@RiskManagementSystem.construct b64
                     [FX_line (D := b64) "EUR" (b64_lit 11 10)] []))
           EUR _ false 4953959590107546%positive (-52) eq_refl eq_refl).
Defined.

(** C6, counterexample.  The feed line [FX.SPOT.EUR 0] stores the spot 0.0;
    EUR then has a spot entry, and [get_fx_spot (EUR, EUR)] is 0.0 / 0.0,
    which is NaN and not 1.0. *)
Lemma get_fx_spot_of_a_zero_spot :
  b64_of_int 1 <> S754_nan /\
  forall exp_impl,
    let rms :=
      @RiskManagementSystem.construct (binary64 exp_impl) [FX_line (D := binary64 exp_impl) "EUR" (b64_of_int 0)] [] in
    RiskManagementSystem.check_fx rms EUR = true /\
    RiskManagementSystem.get_fx_spot rms (EUR, EUR) = Ret (Some S754_nan).
Proof. split; [discriminate|]. intros exp_impl. split; reflexivity. Qed.

(** ** The sign of the sensitivity, in exact arithmetic *)

Section exact_arithmetic.
#[local] Existing Instance real_arithmetic.
Import RiskManagementSystem.

Lemma real_round_trips (amount : R) (rates : list (Z * R)) : round_trips amount rates.
Proof.
  unfold round_trips. apply Forall_forall. intros [k r] _. simpl. ring.
Qed.



(** In exact arithmetic every bump is undone by its release. *)
Lemma bump_release_in_exact_arithmetic (rates : list (Z * R)) (amount : R) :
  InterestRates.ascending rates = true ->
  (forall tenor,
     match @InterestRates.bump_tenor real_arithmetic rates tenor amount with
     | Ret (bumped, unbump_later) => InterestRates.func unbump_later bumped = Ret rates
     | Throw _ => True
     | _ => False
     end) /\
  match @InterestRates.bump_curve real_arithmetic rates amount with
  | Ret (bumped, unbump_later) => InterestRates.func unbump_later bumped = Ret rates
  | _ => False
  end.
Proof.
  intros Ha. split.
  - intros tenor. apply (@bump_tenor_release real_arithmetic), real_round_trips.
  - apply (@bump_curve_release real_arithmetic); [done|apply real_round_trips].
Qed.

Lemma fold_sum_le (l : list (Z * Z)) (f g : Z * Z -> R) (a b : R) :
  Forall (fun kv => f kv <= g kv)%R l -> (a <= b)%R ->
  (fold_left (fun total kv => total + f kv)%R l a
     <= fold_left (fun total kv => total + g kv)%R l b)%R.
Proof.
  intros Hl. revert a b. induction Hl as [|kv l Hkv _ IH]; intros a b Hab; simpl; [done|].
  apply IH. lra.
Qed.






End exact_arithmetic.




(** * Further properties of the code *)

(** ** Currency codes *)

(** X1.  [to_ccy] and [to_string] are inverse to each other: every currency
    is read back from its code, and a string that [to_ccy] accepts is the
    code of the currency it yields, so only the five codes of [G5] are
    accepted. *)
Theorem currency_codes_round_trip :
  (forall ccy, to_ccy (to_string ccy) = Some ccy) /\
  (forall ccy_str ccy, to_ccy ccy_str = Some ccy -> ccy_str = to_string ccy).
Proof.
  split; [by intros []|].
  intros ccy_str ccy. unfold to_ccy, strings. simpl.
  repeat match goal with
         | |- context [String.eqb ccy_str ?s] => destruct (String.eqb_spec ccy_str s)
         end; intros [= <-]; done.
Qed.

(** ** The curve as a map *)

Section curve_updates.
Context {D : DoubleOps}.
Import InterestRates.

Lemma map_at_insert_or_assign (m : rate_map) k v :
  map_at (insert_or_assign m k v) k = Ret v.
Proof.
  induction m as [|[k' v'] m IH]; simpl; [by rewrite Z.eqb_refl|].
  destruct (k <? k') eqn:E1; [simpl; by rewrite Z.eqb_refl|].
  destruct (k =? k') eqn:E2; simpl; [by rewrite Z.eqb_refl|]. by rewrite E2.
Qed.

Lemma map_at_insert_or_assign_ne (m : rate_map) k v k0 :
  k0 <> k -> map_at (insert_or_assign m k v) k0 = map_at m k0.
Proof.
  intros Hne. induction m as [|[k' v'] m IH]; simpl.
  - destruct (k0 =? k) eqn:E; [apply Z.eqb_eq in E; done|done].
  - destruct (k <? k') eqn:E1; [|destruct (k =? k') eqn:E2]; simpl.
    + destruct (k0 =? k) eqn:E; [apply Z.eqb_eq in E; done|done].
    + apply Z.eqb_eq in E2 as <-.
      destruct (k0 =? k) eqn:E; [apply Z.eqb_eq in E; done|done].
    + by rewrite IH.
Qed.


Lemma contains_iff_map_at (m : rate_map) k :
  contains m k = match map_at m k with Ret _ => true | _ => false end.
Proof.
  induction m as [|[k' v'] m IH]; simpl; [done|].
  by destruct (k =? k').
Qed.

(** X2.  [add_rate] stores the rate at its tenor and touches nothing else:
    afterwards the tenor is found by [check_tenor] and its rate is the one
    given, every other tenor is found as before with the rate it had, and
    a curve in key order stays in key order. *)
Theorem add_rate_stores_the_rate (rates : rate_map) (tenor : Z) (rate : double) :
  check_tenor (add_rate rates tenor rate) tenor = true /\
  map_at (add_rate rates tenor rate) tenor = Ret rate /\
  (forall other, other <> tenor ->
     check_tenor (add_rate rates tenor rate) other = check_tenor rates other /\
     map_at (add_rate rates tenor rate) other = map_at rates other) /\
  (ascending rates = true -> ascending (add_rate rates tenor rate) = true).
Proof.
  unfold add_rate, check_tenor. split; [|split; [|split]].
  - by rewrite contains_iff_map_at, map_at_insert_or_assign.
  - apply map_at_insert_or_assign.
  - intros other Hne.
    by rewrite !contains_iff_map_at, map_at_insert_or_assign_ne.
  - apply insert_or_assign_ascending.
Qed.

Lemma insert_or_assign_twice (m : rate_map) k v1 v2 :
  insert_or_assign (insert_or_assign m k v1) k v2 = insert_or_assign m k v2.
Proof.
  induction m as [|[k' v'] m IH]; simpl.
  - by rewrite Z.ltb_irrefl, Z.eqb_refl.
  - destruct (k <? k') eqn:E1; [|destruct (k =? k') eqn:E2]; simpl.
    + by rewrite Z.ltb_irrefl, Z.eqb_refl.
    + by rewrite Z.ltb_irrefl, Z.eqb_refl.
    + by rewrite E1, E2, IH.
Qed.

(** X3.  [add_rate] overwrites: of two rates added at the same tenor the
    second is the one kept, so adding the same rate again changes neither
    the curve nor any discount factor. *)
Theorem add_rate_overwrites (rates : rate_map) (tenor : Z) (rate1 rate2 : double) :
  add_rate (add_rate rates tenor rate1) tenor rate2 = add_rate rates tenor rate2 /\
  forall t,
    get_discount_factor (add_rate (add_rate rates tenor rate2) tenor rate2) t
    = get_discount_factor (add_rate rates tenor rate2) t.
Proof.
  unfold add_rate. split; [apply insert_or_assign_twice|].
  intros t. by rewrite insert_or_assign_twice.
Qed.

Lemma insert_or_assign_commute (m : rate_map) k1 v1 k2 v2 :
  k1 <> k2 ->
  insert_or_assign (insert_or_assign m k1 v1) k2 v2
  = insert_or_assign (insert_or_assign m k2 v2) k1 v1.
Proof.
  intros Hne. induction m as [|[k' v'] m IH]; simpl.
  - destruct (Z.ltb_spec k2 k1), (Z.ltb_spec k1 k2),
      (Z.eqb_spec k2 k1), (Z.eqb_spec k1 k2); try lia; done.
  - destruct (Z.ltb_spec k1 k'), (Z.ltb_spec k2 k'),
      (Z.eqb_spec k1 k'), (Z.eqb_spec k2 k'); simpl;
      repeat match goal with
             | |- context [?a <? ?b] => destruct (Z.ltb_spec a b); try lia
             | |- context [?a =? ?b] => destruct (Z.eqb_spec a b); try lia
             end; try done; try (subst; done).
    by rewrite IH.
Qed.

(** X4.  Rates added at two different tenors can be added in either order:
    the curve is the same. *)
Theorem add_rate_commutes (rates : rate_map) (tenor1 tenor2 : Z) (rate1 rate2 : double) :
  tenor1 <> tenor2 ->
  add_rate (add_rate rates tenor1 rate1) tenor2 rate2
  = add_rate (add_rate rates tenor2 rate2) tenor1 rate1.
Proof. apply insert_or_assign_commute. Qed.

(** X5.  [get_discount_factor] returns on every curve that holds a rate, for
    every tenor, and on the empty curve it dereferences [rates.end()]:
    undefined behaviour, for every tenor. *)
Theorem get_discount_factor_needs_a_rate (rates : rate_map) (t : Z) :
  match rates with
  | [] => get_discount_factor rates t = Undefined
  | _ :: _ => exists df, get_discount_factor rates t = Ret df
  end.
Proof.
  destruct rates as [|kv rates]; [done|]. by apply get_discount_factor_defined.
Qed.

Lemma map_at_update_ne (m : rate_map) k f k0 :
  k0 <> k -> map_at (map_update m k f) k0 = map_at m k0.
Proof.
  intros Hne. induction m as [|[k' v'] m IH]; simpl; [done|].
  destruct (k =? k') eqn:E; simpl.
  - apply Z.eqb_eq in E as <-.
    destruct (k0 =? k) eqn:E'; [apply Z.eqb_eq in E'; done|done].
  - by rewrite IH.
Qed.

Lemma map_at_cases (m : rate_map) k :
  map_at m k = Throw out_of_range \/ exists v, map_at m k = Ret v.
Proof.
  induction m as [|[k' v'] m IH]; simpl; [by left|].
  destruct (k =? k'); [right; by eexists|done].
Qed.

(** X6.  [bump_tenor] adds the amount to the rate stored at its tenor and
    leaves the rate of every other tenor as it was; its release subtracts
    the amount from the same rate and again touches no other.  For a tenor
    that is not stored it throws [std::out_of_range]. *)
Theorem bump_tenor_changes_one_rate (rates : rate_map) (tenor : Z) (amount : double) :
  match map_at rates tenor with
  | Ret r =>
      exists bumped unbump_later restored,
        bump_tenor rates tenor amount = Ret (bumped, unbump_later) /\
        map_at bumped tenor = Ret (dadd r amount) /\
        func unbump_later bumped = Ret restored /\
        map_at restored tenor = Ret (dsub (dadd r amount) amount) /\
        forall other, other <> tenor ->
          map_at bumped other = map_at rates other /\
          map_at restored other = map_at rates other
  | _ => check_tenor rates tenor = false /\
         bump_tenor rates tenor amount = Throw out_of_range
  end.
Proof.
  unfold bump_tenor, check_tenor. rewrite contains_iff_map_at.
  destruct (map_at_cases rates tenor) as [Hr|[r Hr]]; rewrite Hr; simpl; [done|].
  do 3 eexists. split; [done|]. split; [rewrite map_at_update, Hr; reflexivity|].
  simpl. unfold unbump_tenor. rewrite map_at_update, Hr. simpl. split; [reflexivity|].
  split.
  - rewrite !map_at_update, Hr. reflexivity.
  - intros other Hne. by rewrite !map_at_update_ne.
Qed.

Lemma map_at_map_rates f (rates : rate_map) k :
  map_at (map_rates f rates) k = r ← map_at rates k; Ret (f r).
Proof.
  induction rates as [|[k' v'] rates IH]; simpl; [done|].
  by destruct (k =? k').
Qed.

(** X7.  On a curve in key order [bump_curve] adds the amount to every
    stored rate, and its release subtracts it from every stored rate. *)
Theorem bump_curve_changes_every_rate (rates : rate_map) (amount : double) :
  ascending rates = true ->
  exists bumped unbump_later restored,
    bump_curve rates amount = Ret (bumped, unbump_later) /\
    func unbump_later bumped = Ret restored /\
    forall tenor,
      map_at bumped tenor = (r ← map_at rates tenor; Ret (dadd r amount)) /\
      map_at restored tenor
      = (r ← map_at rates tenor; Ret (dsub (dadd r amount) amount)).
Proof.
  intros Ha. unfold bump_curve. rewrite for_each_tenor_all by done. simpl.
  do 3 eexists. split; [done|]. simpl. unfold unbump_curve.
  rewrite for_each_tenor_all.
  2:{ rewrite <- Ha. apply ascending_keys, map_rates_keys. }
  split; [done|]. intros tenor. rewrite !map_at_map_rates.
  by destruct (map_at rates tenor).
Qed.
End curve_updates.

(** X4, witness. *)
Lemma add_rate_commutes_witness :
  @InterestRates.add_rate b64
    (@InterestRates.add_rate b64 [] 30 (b64_lit 2 100)) 60 (b64_lit 25 1000)
  = @InterestRates.add_rate b64
      (@InterestRates.add_rate b64 [] 60 (b64_lit 25 1000)) 30 (b64_lit 2 100).
Proof.
  apply (@add_rate_commutes b64 [] 30 60). discriminate.
Defined.

(** X7, witness. *)
Lemma bump_curve_changes_every_rate_witness :
  let rates : list (Z * spec_float) := [(30, b64_lit 2 100); (60, b64_lit 25 1000)] in
  exists bumped unbump_later restored,
    @InterestRates.bump_curve b64 rates (b64_lit 1 10000) = Ret (bumped, unbump_later) /\
    InterestRates.func unbump_later bumped = Ret restored /\
    forall tenor,
      @InterestRates.map_at b64 bumped tenor
      = (r ← @InterestRates.map_at b64 rates tenor;
         Ret (SFadd 53 1024 r (b64_lit 1 10000))) /\
      @InterestRates.map_at b64 restored tenor
      = (r ← @InterestRates.map_at b64 rates tenor;
         Ret (SFsub 53 1024 (SFadd 53 1024 r (b64_lit 1 10000)) (b64_lit 1 10000))).
Proof.
  exact (@bump_curve_changes_every_rate b64
           [(30, b64_lit 2 100); (60, b64_lit 25 1000)] (b64_lit 1 10000) eq_refl).
Defined.

(** ** Interpolation in exact arithmetic *)

Section interpolation_in_exact_arithmetic.
#[local] Existing Instance real_arithmetic.



End interpolation_in_exact_arithmetic.



(** ** The ledger, continued *)

Section ledger_updates.
Context {D : DoubleOps}.
Import DateNotionals.

Lemma mapM_returns {A B : Type} (f : A -> outcome B) (l : list A) :
  (exists bs, mapM f l = Ret bs) <-> Forall (fun a => exists b, f a = Ret b) l.
Proof.
  split.
  - induction l as [|a l IH]; intros [bs Hbs]; constructor; simpl in Hbs.
    + destruct (f a) as [b| | |]; [by eexists|done..].
    + apply IH. destruct (f a) as [b| | |]; [|done..]. simpl in Hbs.
      destruct (mapM f l) as [bs'| | |]; [by eexists|done..].
  - induction 1 as [|a l [b Hb] _ [bs IH]]; simpl; [by eexists|].
    rewrite Hb. simpl. rewrite IH. by eexists.
Qed.

(** X10.  [get_book_value] returns exactly when the discount function
    returns at the effective tenor [date - delta] of every stored trade; a
    discount function that throws, or has undefined behaviour, at one of
    them makes [get_book_value] fail, and no other tenor is asked for.  On
    an empty ledger it returns 0.0 whatever the discount function does. *)
Theorem get_book_value_returns_iff (dn : t) (discount_fn : Z -> outcome double) :
  ((exists v, get_book_value dn discount_fn = Ret v) <->
   (forall date notional, date_notionals dn !! date = Some notional ->
      exists df, discount_fn (date - delta dn) = Ret df)) /\
  (date_notionals dn = ∅ -> get_book_value dn discount_fn = Ret (of_int 0)).
Proof.
  split.
  - unfold get_book_value.
    match goal with |- context [mapM ?f ?l] =>
      pose proof (mapM_returns f l) as Hm; destruct (mapM f l) as [pvs| | |] eqn:E
    end; simpl.
    all: rewrite Forall_forall in Hm.
    all: split; [intros [v Hv]|intros Hall].
    all: try done.
    + intros date notional Hin. apply elem_of_map_to_list in Hin.
      destruct (proj1 Hm ltac:(by eexists) _ Hin) as [b Hb]. simpl in Hb.
      destruct (discount_fn (date - delta dn)); [by eexists|done..].
    + by eexists.
    + destruct (proj2 Hm) as [bs Hbs]; [|done].
      intros [date notional] Hin%elem_of_map_to_list.
      destruct (Hall _ _ Hin) as [df ->]. by eexists.
    + destruct (proj2 Hm) as [bs Hbs]; [|done].
      intros [date notional] Hin%elem_of_map_to_list.
      destruct (Hall _ _ Hin) as [df ->]. by eexists.
    + destruct (proj2 Hm) as [bs Hbs]; [|done].
      intros [date notional] Hin%elem_of_map_to_list.
      destruct (Hall _ _ Hin) as [df ->]. by eexists.
  - intros He. unfold get_book_value. by rewrite He, map_to_list_empty.
Qed.


(** X12.  [add_trade] always leaves a bucket for its date, also for a
    notional of 0 and for notionals that cancel: afterwards [get_maturities]
    reports that date and the dates it reported before, and no other. *)
Theorem add_trade_maturities (dn : t) (date notional : Z) :
  forall d,
    d ∈ get_maturities (add_trade dn date notional) <->
    d = date \/ d ∈ get_maturities dn.
Proof.
  intros d. unfold get_maturities, add_trade. simpl.
  rewrite !list_elem_of_fmap. split.
  - intros [[d' n] [-> Hin%elem_of_map_to_list]]. simpl.
    apply lookup_insert_Some in Hin as [[<- _]|[Hne Hin]]; [by left|].
    right. exists (d', n). split; [done|]. by apply elem_of_map_to_list.
  - intros [->|[[d' n] [-> Hin%elem_of_map_to_list]]].
    + eexists (date, _). split; [done|]. apply elem_of_map_to_list.
      apply lookup_insert_eq.
    + simpl. destruct (decide (d' = date)) as [->|Hne].
      * eexists (date, _). split; [done|]. apply elem_of_map_to_list.
        apply lookup_insert_eq.
      * exists (d', n). split; [done|]. apply elem_of_map_to_list.
        by rewrite lookup_insert_ne.
Qed.
End ledger_updates.

(** ** Ingestion *)

Section ingestion.
Context {D : DoubleOps}.
Import RiskManagementSystem.




Lemma currency_notionals_ingest_rates lines rms :
  currency_notionals (fold_left ingest_rates_line lines rms) = currency_notionals rms /\
  delta (fold_left ingest_rates_line lines rms) = delta rms.
Proof.
  revert rms. induction lines as [|line lines IH]; intros rms; simpl; [done|].
  destruct (IH (ingest_rates_line rms line)) as (-> & ->).
  destruct line as [count name ccy_str rate|ccy_str spot|]; simpl; [| |done].
  - unfold parse_rate. destruct (negb (check_tenor_val count)); [done|].
    destruct (days_of_unit name); [|done]. by destruct (to_ccy ccy_str).
  - unfold parse_fx. by destruct (to_ccy ccy_str).
Qed.







End ingestion.

(** ** What [get_DV01] leaves alone *)

Section sensitivity_frame.
Context {D : DoubleOps}.
Import RiskManagementSystem.

Lemma DV01_body_state rms ccy bump :
  (forall amount rates,
     match bump rates amount with
     | Ret (bumped, unbump_later) =>
         same_tenors bumped rates /\
         exists restored,
           InterestRates.func unbump_later bumped = Ret restored /\
           same_tenors restored rates
     | Throw _ => True
     | _ => False
     end) ->
  (DV01_body rms ccy bump).1 = rms \/
  exists rates rates',
    currency_rates rms !! ccy = Some rates /\
    rates'.*1 = rates.*1 /\
    (DV01_body rms ccy bump).1 = with_rates rms ccy rates'.
Proof.
  intros Hbump. unfold DV01_body, at_key.
  destruct (currency_rates rms !! ccy) as [rates|] eqn:Hr; [|by left].
  destruct (currency_notionals rms !! ccy) as [trades|]; [|by left].
  match goal with |- context [central_difference ?fx ?g rates] =>
    pose proof (keeps_tenors_central_difference fx g) as Hk;
    destruct (central_difference fx g rates) as [rates' result] eqn:Hcd
  end.
  specialize (Hk (fun amount => keeps_tenors_scoped _ _ (Hbump amount)) rates).
  rewrite Hcd in Hk. right. by exists rates, rates'.
Qed.

Lemma same_but_rates_with_rates rms ccy (rates rates' : InterestRates.rate_map) :
  currency_rates rms !! ccy = Some rates -> rates'.*1 = rates.*1 ->
  same_but_rates (with_rates rms ccy rates') rms /\
  forall other, other <> ccy ->
    currency_rates (with_rates rms ccy rates') !! other = currency_rates rms !! other.
Proof.
  intros Hr Hk. split; [split; [done|split; [done|split; [done|]]]|].
  - intros c. unfold get_tenors, check_rates, has_key, at_key. simpl.
    destruct (decide (c = ccy)) as [->|Hne].
    + rewrite lookup_insert_eq, Hr. simpl. unfold InterestRates.get_tenors. by rewrite Hk.
    + by rewrite lookup_insert_ne.
  - intros other Hne. simpl. by rewrite lookup_insert_ne.
Qed.

Lemma DV01_body_frame rms ccy bump :
  (forall amount rates,
     match bump rates amount with
     | Ret (bumped, unbump_later) =>
         same_tenors bumped rates /\
         exists restored,
           InterestRates.func unbump_later bumped = Ret restored /\
           same_tenors restored rates
     | Throw _ => True
     | _ => False
     end) ->
  same_but_rates (DV01_body rms ccy bump).1 rms /\
  forall other, other <> ccy ->
    currency_rates (DV01_body rms ccy bump).1 !! other = currency_rates rms !! other.
Proof.
  intros Hbump.
  destruct (DV01_body_state rms ccy bump Hbump) as [->|(rates & rates' & Hr & Hk & ->)].
  - done.
  - by apply (same_but_rates_with_rates rms ccy rates).
Qed.

Lemma bump_tenor_keeps_tenors tenor amount (rates : InterestRates.rate_map) :
  match InterestRates.bump_tenor rates tenor amount with
  | Ret (bumped, unbump_later) =>
      same_tenors bumped rates /\
      exists restored,
        InterestRates.func unbump_later bumped = Ret restored /\
        same_tenors restored rates
  | Throw _ => True
  | _ => False
  end.
Proof.
  pose proof (bump_tenor_same_tenors rates tenor amount) as H.
  by destruct (InterestRates.bump_tenor rates tenor amount) as [[??]| | |].
Qed.

Lemma bump_curve_keeps_tenors amount (rates : InterestRates.rate_map) :
  match InterestRates.bump_curve rates amount with
  | Ret (bumped, unbump_later) =>
      same_tenors bumped rates /\
      exists restored,
        InterestRates.func unbump_later bumped = Ret restored /\
        same_tenors restored rates
  | Throw _ => True
  | _ => False
  end.
Proof.
  pose proof (bump_curve_same_tenors rates amount) as H.
  by destruct (InterestRates.bump_curve rates amount) as [[??]| | |].
Qed.

(** X16.  Whatever they return, both [get_DV01] leave the spots, the
    ledgers and the valuation delta of the engine as they were, the curves
    of the other currencies as they were, and the stored tenors of every
    currency as [get_tenors] reports them: only rates of the curve of
    [ccy] can differ afterwards. *)
Theorem get_DV01_changes_rates_only rms ccy tenor :
  (same_but_rates (get_DV01_tenor rms ccy tenor).1 rms /\
   forall other, other <> ccy ->
     currency_rates (get_DV01_tenor rms ccy tenor).1 !! other
     = currency_rates rms !! other) /\
  (same_but_rates (get_DV01_curve rms ccy).1 rms /\
   forall other, other <> ccy ->
     currency_rates (get_DV01_curve rms ccy).1 !! other = currency_rates rms !! other).
Proof.
  split.
  - unfold get_DV01_tenor.
    destruct (negb (check_tenor_rate rms ccy tenor) || negb (check_fx rms ccy)); [done|].
    apply DV01_body_frame. intros amount rates. apply bump_tenor_keeps_tenors.
  - unfold get_DV01_curve.
    destruct (negb (check_rates rms ccy) || negb (check_fx rms ccy)); [done|].
    apply DV01_body_frame. intros amount rates. apply bump_curve_keeps_tenors.
Qed.

(** *** Invariants of the reachable states *)

Lemma ledgers_sound_parse_trade rms notional ccy_str payment_date :
  ledgers_sound rms -> ledgers_sound (parse_trade rms notional ccy_str payment_date).
Proof.
  intros [Hd Hl]. unfold parse_trade. destruct (to_ccy ccy_str) as [ccy|]; [|done].
  unfold check_tenor_val. rewrite Hd.
  destruct (payment_date - 42940 <? 0) eqn:Hneg; [done|]. apply Z.ltb_ge in Hneg.
  split; [done|]. intros ccy' dn'. simpl. rewrite lookup_insert.
  case_decide as E; [|apply Hl]. intros [= <-]. subst ccy'.
  unfold DateNotionals.add_trade. simpl.
  destruct (currency_notionals rms !! ccy) as [dn|] eqn:Hdn; simpl.
  - destruct (Hl ccy dn Hdn) as (Hdd & _ & Hdates).
    split; [done|]. split; [apply insert_non_empty|].
    intros date n [[<- _]|[_ Hin]]%lookup_insert_Some; [lia|by eapply Hdates].
  - split; [done|]. split; [apply insert_non_empty|].
    intros date n [[<- _]|[_ Hin]]%lookup_insert_Some; [lia|].
    by rewrite lookup_empty in Hin.
Qed.

Lemma ledgers_sound_construct rates_lines portfolio_lines :
  ledgers_sound (construct rates_lines portfolio_lines).
Proof.
  unfold construct.
  set (rms0 := with_delta (fold_left ingest_rates_line rates_lines initial) 42940).
  assert (ledgers_sound rms0) as H0.
  { split; [done|]. intros ccy dn. unfold rms0. simpl.
    rewrite (proj1 (currency_notionals_ingest_rates _ _)). simpl.
    by rewrite lookup_empty. }
  clearbody rms0. revert rms0 H0.
  induction portfolio_lines as [|line lines IH]; intros rms H0; simpl; [done|].
  apply IH. destruct line; simpl; [by apply ledgers_sound_parse_trade|done].
Qed.

Lemma ledgers_sound_same_but_rates rms' rms :
  same_but_rates rms' rms -> ledgers_sound rms -> ledgers_sound rms'.
Proof. intros (_ & Hn & Hd & _) [H1 H2]. split; [congruence|]. by rewrite Hn. Qed.

Lemma reachable_ledgers_sound rms : reachable rms -> ledgers_sound rms.
Proof.
  induction 1 as [| rms ccy tenor _ IH | rms ccy _ IH].
  - apply ledgers_sound_construct.
  - eapply ledgers_sound_same_but_rates; [|exact IH].
    apply (get_DV01_changes_rates_only rms ccy tenor).
  - eapply ledgers_sound_same_but_rates; [|exact IH].
    apply (get_DV01_changes_rates_only rms ccy 0).
Qed.

(** X17.  In every reachable state the valuation delta is the one of the
    constructor, and [get_maturities] returns for every currency: the empty
    list without a ledger, and otherwise at least one date, none twice and
    none before the valuation date, so that [get_book_value] asks for
    discount factors at non-negative tenors only. *)
Theorem reachable_ledgers_hold_no_past_trades rms ccy :
  reachable rms ->
  delta rms = 42940 /\
  match currency_notionals rms !! ccy with
  | Some dn =>
      DateNotionals.delta dn = delta rms /\
      exists dates,
        get_maturities rms ccy = Ret dates /\
        dates <> [] /\ NoDup dates /\
        Forall (fun date => 0 <= date - DateNotionals.delta dn) dates
  | None => get_maturities rms ccy = Ret []
  end.
Proof.
  intros [Hd Hl]%reachable_ledgers_sound. split; [done|].
  unfold get_maturities, check_maturities, has_key, at_key.
  destruct (currency_notionals rms !! ccy) as [dn|] eqn:Hdn; [|done]. simpl.
  destruct (Hl ccy dn Hdn) as (Hdd & Hne & Hdates). split; [congruence|].
  eexists. split; [done|]. unfold DateNotionals.get_maturities. split; [|split].
  - intros Hnil%fmap_nil_inv. by apply map_to_list_empty_iff in Hnil.
  - apply NoDup_fst_map_to_list.
  - apply Forall_forall. intros date ([d n] & -> & Hin)%list_elem_of_fmap. simpl.
    apply elem_of_map_to_list in Hin. apply Hdates in Hin. lia.
Qed.







(** X19.  The outcomes of both [get_DV01] in a reachable state: "no result"
    when a check fails; with the checks passed, a value when the currency
    has a ledger and [std::out_of_range] when it has none.  No other
    failure occurs: no release fails, and no discount factor is taken of an
    empty curve. *)
Theorem get_DV01_outcomes rms ccy tenor :
  reachable rms ->
  (if check_tenor_rate rms ccy tenor && check_fx rms ccy
   then if check_maturities rms ccy
        then exists v, (get_DV01_tenor rms ccy tenor).2 = Ret (Some v)
        else get_DV01_tenor rms ccy tenor = (rms, Throw out_of_range)
   else get_DV01_tenor rms ccy tenor = (rms, Ret None)) /\
  (if check_rates rms ccy && check_fx rms ccy
   then if check_maturities rms ccy
        then exists v, (get_DV01_curve rms ccy).2 = Ret (Some v)
        else get_DV01_curve rms ccy = (rms, Throw out_of_range)
   else get_DV01_curve rms ccy = (rms, Ret None)).
Proof.
  intros [Hc [fx_usd Hu]]%reachable_well_formed.
  unfold get_DV01_tenor, get_DV01_curve, check_tenor_rate, check_rates, check_fx,
    check_maturities, has_key.
  destruct (currency_rates rms !! ccy) as [rates|] eqn:Hr; simpl; [|done].
  destruct (Hc ccy rates Hr) as [Hne Ha].
  destruct (currency_spot rms !! ccy) as [fx_ccy|] eqn:Hs;
    destruct (InterestRates.check_tenor rates tenor) eqn:Ht; simpl; try done.
  - destruct (currency_notionals rms !! ccy) as [trades|] eqn:Hn.
    + split.
      * destruct (DV01_body_value rms ccy
                    (fun rates amount => InterestRates.bump_tenor rates tenor amount)
                    rates trades fx_usd fx_ccy)
          as (up & down & rates1 & rates2 & _ & _ & ->);
          [done..|by apply bump_tenor_in_place|]. by eexists.
      * destruct (DV01_body_value rms ccy
                    (fun rates amount => InterestRates.bump_curve rates amount)
                    rates trades fx_usd fx_ccy)
          as (up & down & rates1 & rates2 & _ & _ & ->);
          [done..|by apply bump_curve_in_place|]. by eexists.
    + split; by apply DV01_body_without_a_ledger.
  - split; [done|].
    destruct (currency_notionals rms !! ccy) as [trades|] eqn:Hn.
    + destruct (DV01_body_value rms ccy
                  (fun rates amount => InterestRates.bump_curve rates amount)
                  rates trades fx_usd fx_ccy)
        as (up & down & rates1 & rates2 & _ & _ & ->);
        [done..|by apply bump_curve_in_place|]. by eexists.
    + by apply DV01_body_without_a_ledger.
Qed.

Lemma with_rates_id rms ccy rates :
  currency_rates rms !! ccy = Some rates -> with_rates rms ccy rates = rms.
Proof.
  intros Hr. destruct rms. unfold with_rates. simpl in *. by rewrite insert_id.
Qed.

Lemma bumped_value_released (trades : DateNotionals.t)
    (bump : InterestRates.rate_map -> double ->
            outcome (InterestRates.rate_map * InterestRates.finally))
    (rates : InterestRates.rate_map) amount v rates_after :
  match bump rates amount with
  | Ret (bumped, unbump_later) => InterestRates.func unbump_later bumped = Ret rates
  | Throw _ => True
  | _ => False
  end ->
  bumped_value trades (bump rates amount) v rates_after -> rates_after = rates.
Proof.
  intros Hrel (bumped & unbump_later & Hb & _ & Hr). rewrite Hb in Hrel. congruence.
Qed.

(** X20.  In a reachable state whose curve of [ccy] comes back rate by
    rate from adding and subtracting [EPS] and [-EPS], both [get_DV01]
    leave the whole engine as it was, whatever they return. *)
Theorem get_DV01_restores_the_engine rms ccy tenor :
  reachable rms ->
  (forall rates, currency_rates rms !! ccy = Some rates ->
     round_trips EPS rates /\ round_trips (dneg EPS) rates) ->
  (get_DV01_tenor rms ccy tenor).1 = rms /\ (get_DV01_curve rms ccy).1 = rms.
Proof.
  intros [Hc [fx_usd Hu]]%reachable_well_formed Hrt.
  assert (forall rates trades fx_ccy bump,
            currency_rates rms !! ccy = Some rates ->
            currency_notionals rms !! ccy = Some trades ->
            currency_spot rms !! ccy = Some fx_ccy ->
            bumps_in_place bump rates ->
            (forall amount, round_trips amount rates ->
               match bump rates amount with
               | Ret (bumped, unbump_later) =>
                   InterestRates.func unbump_later bumped = Ret rates
               | Throw _ => True
               | _ => False
               end) ->
            (DV01_body rms ccy bump).1 = rms) as Hbody.
  { intros rates trades fx_ccy bump Hr Hn Hs Hin Hrel.
    destruct (Hc ccy rates Hr) as [Hne Ha]. destruct (Hrt rates Hr) as [Hup Hdown].
    destruct (DV01_body_value rms ccy bump rates trades fx_usd fx_ccy)
      as (up & down & rates1 & rates2 & H1 & H2 & ->); [done..|].
    apply bumped_value_released in H1 as ->; [|by apply Hrel].
    apply bumped_value_released in H2 as ->; [|by apply Hrel].
    by apply with_rates_id. }
  unfold get_DV01_tenor, get_DV01_curve, check_tenor_rate, check_rates, check_fx, has_key.
  destruct (currency_rates rms !! ccy) as [rates|] eqn:Hr; simpl; [|done].
  destruct (Hc ccy rates Hr) as [Hne Ha].
  destruct (currency_spot rms !! ccy) as [fx_ccy|] eqn:Hs;
    destruct (InterestRates.check_tenor rates tenor) eqn:Ht; simpl; try done.
  - destruct (currency_notionals rms !! ccy) as [trades|] eqn:Hn.
    + split.
      * apply (Hbody rates trades fx_ccy); [done..|by apply bump_tenor_in_place|].
        intros amount. apply bump_tenor_release.
      * apply (Hbody rates trades fx_ccy); [done..|by apply bump_curve_in_place|].
        intros amount Hrta. pose proof (bump_curve_release rates amount Ha Hrta) as H.
        by destruct (InterestRates.bump_curve rates amount) as [[??]| | |].
    + split; by rewrite DV01_body_without_a_ledger.
  - split; [done|].
    destruct (currency_notionals rms !! ccy) as [trades|] eqn:Hn.
    + apply (Hbody rates trades fx_ccy); [done..|by apply bump_curve_in_place|].
      intros amount Hrta. pose proof (bump_curve_release rates amount Ha Hrta) as H.
      by destruct (InterestRates.bump_curve rates amount) as [[??]| | |].
    + by rewrite DV01_body_without_a_ledger.
Qed.
End sensitivity_frame.

Lemma reachable_ledgers_hold_no_past_trades_witness :
  RiskManagementSystem.delta sample_rms = 42940 /\
  match RiskManagementSystem.currency_notionals sample_rms !! EUR with
  | Some dn =>
      DateNotionals.delta dn = RiskManagementSystem.delta sample_rms /\
      exists dates,
        RiskManagementSystem.get_maturities sample_rms EUR = Ret dates /\
        dates <> [] /\ NoDup dates /\
        Forall (fun date => 0 <= date - DateNotionals.delta dn) dates
  | None => RiskManagementSystem.get_maturities sample_rms EUR = Ret []
  end.
Proof.
  apply (reachable_ledgers_hold_no_past_trades sample_rms EUR).
  apply reachable_construct.
Defined.


Lemma get_DV01_outcomes_witness :
  (exists v, (RiskManagementSystem.get_DV01_tenor sample_rms EUR 30).2 = Ret (Some v)) /\
  (exists v, (RiskManagementSystem.get_DV01_curve sample_rms EUR).2 = Ret (Some v)).
Proof.
  exact (get_DV01_outcomes sample_rms EUR 30 (reachable_construct _ _)).
Defined.

Lemma get_DV01_restores_the_engine_witness :
  (RiskManagementSystem.get_DV01_tenor sample_rms EUR 30).1 = sample_rms /\
  (RiskManagementSystem.get_DV01_curve sample_rms EUR).1 = sample_rms.
Proof.
  apply (get_DV01_restores_the_engine sample_rms EUR 30).
  - apply reachable_construct.
  - intros rates _. split; apply real_round_trips.
Defined.

(** ** Cross rates, in exact arithmetic *)

Section cross_rates_in_exact_arithmetic.
#[local] Existing Instance real_arithmetic.
Import RiskManagementSystem.

End cross_rates_in_exact_arithmetic.

